(** * Webring navigation: a shallow embedding of [src/lib/webRingNavigation.ts]

    The module computes the "previous" and "next" links of a webring from the
    ordered list of member sites and the current site.  The TypeScript source
    is embedded function by function:

    - JavaScript strings are [string]s, numbers used as array indices are [Z];
    - [try { ... } catch { ... }] is an exception monad;
    - the monad also logs which functions of the module are entered, so that
      statements such as "returns without running the finder" can be written;
    - the platform's [URL] class is not part of the repository: the functions
      take the constructor as a parameter [new_URL], and module [Url] below
      gives a model of it on plain [http(s)/ws(s)/ftp] URLs with a domain
      host, used wherever a statement needs concrete parsing results. *)

From Stdlib Require Import String Ascii List ZArith NArith Bool Lia.
From Stdlib Require Import DecimalString DecimalN.
Import ListNotations.

Local Open Scope string_scope.
Local Open Scope Z_scope.

(** ** JavaScript values that the module produces *)

(** A field of the navigation result: [null], [undefined] (what an array read
    out of range yields) or a string. *)
Inductive value : Type :=
| Null
| Undefined
| Str (s : string).

(** [import type { WebRingNavigation } from '../types'] *)
Record WebRingNavigation : Type := { prev : value; next : value }.

(** The object returned by [calculateNavigationIndices]. *)
Record NavigationIndices : Type := { prevIndex : Z; nextIndex : Z }.

(** The four getters of a [URL] object that the module reads. *)
Record URL : Type := {
  protocol : string;
  hostname : string;
  port : string;
  origin : string
}.

(** ** Exceptions and the call log *)

(** The functions of the module. *)
Inductive callee : Type :=
| FnNormalizeHostname
| FnNormalizeOrigin
| FnFindCurrentSiteIndex
| FnCalculateNavigationIndices
| FnCalculateWebRingNavigation.

(** A computation yields the functions it entered, in order, and either a
    result or [None] when an exception escapes. *)
Definition M (A : Type) : Type := (list callee * option A)%type.

Definition ret {A} (a : A) : M A := ([], Some a).

Definition throw {A} : M A := ([], None).

Definition bind {A B} (m : M A) (f : A -> M B) : M B :=
  match m with
  | (t, Some a) => let (t', r) := f a in ((t ++ t')%list, r)
  | (t, None) => (t, None)
  end.

(** [try { m } catch { h }] *)
Definition try_catch {A} (m : M A) (h : M A) : M A :=
  match m with
  | (t, None) => let (t', r) := h in ((t ++ t')%list, r)
  | (_, Some _) => m
  end.

(** Entering function [f] whose body is [m]. *)
Definition call {A} (f : callee) (m : M A) : M A := (f :: fst m, snd m).

Definition trace {A} (m : M A) : list callee := fst m.
Definition outcome {A} (m : M A) : option A := snd m.

Notation "x <- m ;; k" := (bind m (fun x => k))
  (at level 61, m at next level, right associativity).

(** ** String primitives *)

(** [String.prototype.toLowerCase] on the ASCII range. *)
Definition lower_ascii (c : ascii) : ascii :=
  let n := N_of_ascii c in
  if ((65 <=? n) && (n <=? 90))%N then ascii_of_N (n + 32) else c.

Fixpoint toLowerCase (s : string) : string :=
  match s with
  | EmptyString => EmptyString
  | String c s' => String (lower_ascii c) (toLowerCase s')
  end.

(** Matching the literal [p] at the start of [s]; the rest of [s] on success. *)
Fixpoint match_prefix (p s : string) : option string :=
  match p, s with
  | EmptyString, _ => Some s
  | String a p', String b s' =>
      if Ascii.eqb a b then match_prefix p' s' else None
  | String _ _, EmptyString => None
  end.

(** Matching the lower-case literal [p] at the start of [s] under the [i] flag;
    the matched text (as written in [s]) and the rest of [s] on success. *)
Fixpoint match_prefix_i (p s : string) : option (string * string) :=
  match p, s with
  | EmptyString, _ => Some (EmptyString, s)
  | String a p', String b s' =>
      if Ascii.eqb a (lower_ascii b) then
        match match_prefix_i p' s' with
        | Some (g, r) => Some (String b g, r)
        | None => None
        end
      else None
  | String _ _, EmptyString => None
  end.

(** [s.replace(/^www\./, '')] *)
Definition replace_leading_www (s : string) : string :=
  match match_prefix "www." s with
  | Some r => r
  | None => s
  end.

(** One alternative of [/^(https?:\/\/)www\./i], replaced by ['$1']. *)
Definition replace_after (scheme s : string) : option string :=
  match match_prefix_i scheme s with
  | Some (g, r) =>
      match match_prefix_i "www." r with
      | Some (_, r') => Some (g ++ r')
      | None => None
      end
  | None => None
  end.

(** [s.replace(/^(https?:\/\/)www\./i, '$1')]: the greedy [s?] is tried with
    the [s] first. *)
Definition replace_scheme_www (s : string) : string :=
  match replace_after "https://" s with
  | Some r => r
  | None =>
      match replace_after "http://" s with
      | Some r => r
      | None => s
      end
  end.

(** A string in a condition is true when it is not empty. *)
Definition truthy (s : string) : bool := negb (s =? "")%string.

(** ** Array primitives *)

(** [a[i]] for a number [i]: [undefined] out of range. *)
Definition array_get (a : list string) (i : Z) : value :=
  if i <? 0 then Undefined
  else match nth_error a (Z.to_nat i) with
       | Some s => Str s
       | None => Undefined
       end.

(** [a.findIndex(p)] seen from index [i] on: the first index whose element
    satisfies [p], [-1] when there is none; an exception of [p] escapes. *)
Fixpoint findIndex_from {A} (p : A -> M bool) (a : list A) (i : Z) : M Z :=
  match a with
  | [] => ret (-1)
  | x :: a' =>
      b <- p x ;;
      if b then ret i else findIndex_from p a' (i + 1)
  end.

Definition findIndex {A} (p : A -> M bool) (a : list A) : M Z :=
  findIndex_from p a 0.

(** ** The module *)

Section WebRingNavigation.

(** [new URL(s)], without a base: the object, or [None] for a [TypeError]. *)
Variable new_URL : string -> option URL.

Definition construct_URL (s : string) : M URL :=
  match new_URL s with
  | Some u => ret u
  | None => throw
  end.

(** [normalizeHostname], lines 7-9. *)
Definition normalizeHostname (hostname : string) : M string :=
  call FnNormalizeHostname
    (ret (replace_leading_www (toLowerCase hostname))).

(** [normalizeOrigin], lines 15-25. *)
Definition normalizeOrigin (origin : string) : M string :=
  call FnNormalizeOrigin
    (try_catch
       (url <- construct_URL origin ;;
        normalizedHostname <- normalizeHostname (hostname url) ;;
        ret (protocol url ++ "//" ++ normalizedHostname
             ++ (if truthy (port url) then ":" ++ port url else "")))
       (ret (replace_scheme_www origin))).

(** The callback of [findIndex] in [findCurrentSiteIndex], lines 32-42. *)
Definition sameSite (currentSite site : string) : M bool :=
  try_catch
    (siteUrl <- construct_URL site ;;
     currentUrl <- construct_URL currentSite ;;
     a <- normalizeOrigin (origin siteUrl) ;;
     b <- normalizeOrigin (origin currentUrl) ;;
     ret (a =? b)%string)
    (ret (site =? currentSite)%string).

(** [findCurrentSiteIndex], lines 31-43. *)
Definition findCurrentSiteIndex (sites : list string) (currentSite : string)
  : M Z :=
  call FnFindCurrentSiteIndex (findIndex (sameSite currentSite) sites).

(** [calculateNavigationIndices], lines 48-65. *)
Definition calculateNavigationIndices (currentIndex sitesLength : Z)
  : M NavigationIndices :=
  call FnCalculateNavigationIndices
    (if currentIndex <? 0 then
       ret {| prevIndex := sitesLength - 1; nextIndex := 0 |}
     else
       ret {| prevIndex :=
                if currentIndex =? 0 then sitesLength - 1
                else currentIndex - 1;
              nextIndex :=
                if currentIndex =? sitesLength - 1 then 0
                else currentIndex + 1 |}).

(** [calculateWebRingNavigation], lines 71-93.  [currentSite] is the optional
    argument; [window] is [None] where [typeof window === 'undefined'] and
    otherwise holds [window.location.origin]. *)
Definition calculateWebRingNavigation
  (sites : list string) (currentSite : option string) (window : option string)
  : M WebRingNavigation :=
  call FnCalculateWebRingNavigation
    (if Z.of_nat (List.length sites) =? 0 then
       ret {| prev := Null; next := Null |}
     else
       let ambient :=
         match window with
         | Some location_origin => findCurrentSiteIndex sites location_origin
         | None => ret (-1)
         end in
       currentIndex <-
         match currentSite with
         | Some c => if truthy c then findCurrentSiteIndex sites c else ambient
         | None => ambient
         end ;;
       ix <- calculateNavigationIndices currentIndex
               (Z.of_nat (List.length sites)) ;;
       ret {| prev := array_get sites (prevIndex ix);
              next := array_get sites (nextIndex ix) |}).

End WebRingNavigation.

(** ** A model of the platform's [URL] constructor *)

(** [Url.parse] follows the URL parser of the platform on the inputs

      scheme ":" slashes host [ ":" digits ] [ tail ]

    where the scheme is [http], [https], [ws], [wss] or [ftp] in any case, the
    host is a domain of non-empty labels of ASCII letters, digits and hyphens
    whose last label does not start with a digit and none of which is a
    punycode label, and the tail starts with a path, query or fragment
    delimiter.  On these inputs the answer [Some u] carries the getters that
    [new URL] gives.  [None] stands for a [TypeError] and also for every input
    outside this fragment (credentials, IP addresses, other schemes, code
    points that the parser strips or encodes). *)
Module Url.

Definition is_digit (c : ascii) : bool :=
  let n := N_of_ascii c in ((48 <=? n) && (n <=? 57))%N.

Definition is_lower_alpha (c : ascii) : bool :=
  let n := N_of_ascii c in ((97 <=? n) && (n <=? 122))%N.

(** Scheme state: the text before the first [:], lower-cased, and what
    follows the colon. *)
Fixpoint scan_scheme (s : string) : option (string * string) :=
  match s with
  | EmptyString => None
  | String c s' =>
      if Ascii.eqb c ":" then Some (EmptyString, s')
      else match scan_scheme s' with
           | Some (scheme, rest) => Some (String (lower_ascii c) scheme, rest)
           | None => None
           end
  end.

(** The special schemes with a host, and their default ports. *)
Definition default_port (scheme : string) : option N :=
  if (scheme =? "http")%string then Some 80%N
  else if (scheme =? "https")%string then Some 443%N
  else if (scheme =? "ws")%string then Some 80%N
  else if (scheme =? "wss")%string then Some 443%N
  else if (scheme =? "ftp")%string then Some 21%N
  else None.

(** Special authority (ignore) slashes states: every leading [/] and [\] is
    skipped. *)
Fixpoint skip_slashes (s : string) : string :=
  match s with
  | EmptyString => EmptyString
  | String c s' =>
      if Ascii.eqb c "/" || Ascii.eqb c "\" then skip_slashes s' else s
  end.

Definition is_delimiter (c : ascii) : bool :=
  Ascii.eqb c "/" || Ascii.eqb c "\" || Ascii.eqb c "?" || Ascii.eqb c "#".

(** Authority state: the text up to the end of input or the first of
    [/ \ ? #]. *)
Fixpoint authority (s : string) : string :=
  match s with
  | EmptyString => EmptyString
  | String c s' =>
      if is_delimiter c then EmptyString else String c (authority s')
  end.

(** Host state: the host is the text before the first [:], the port text is
    what follows it. *)
Fixpoint split_colon (s : string) : string * option string :=
  match s with
  | EmptyString => (EmptyString, None)
  | String c s' =>
      if Ascii.eqb c ":" then (EmptyString, Some s')
      else let (h, p) := split_colon s' in (String c h, p)
  end.

(** The labels of a domain, split at the dots. *)
Fixpoint labels (s : string) : list string :=
  match s with
  | EmptyString => [EmptyString]
  | String c s' =>
      if Ascii.eqb c "." then EmptyString :: labels s'
      else match labels s' with
           | l :: ls => String c l :: ls
           | [] => [String c EmptyString]
           end
  end.

Definition is_label_char (c : ascii) : bool :=
  is_lower_alpha c || is_digit c || Ascii.eqb c "-".

Fixpoint all_chars (p : ascii -> bool) (s : string) : bool :=
  match s with
  | EmptyString => true
  | String c s' => p c && all_chars p s'
  end.

Definition first_is_digit (s : string) : bool :=
  match s with
  | EmptyString => false
  | String c _ => is_digit c
  end.

(** A lower-cased label of the fragment: not empty, letters, digits and
    hyphens, not punycode. *)
Definition label_ok (l : string) : bool :=
  negb (l =? "")%string && all_chars is_label_char l
  && match match_prefix "xn--" l with Some _ => false | None => true end.

(** A lower-cased host of the fragment. *)
Definition host_ok (h : string) : bool :=
  forallb label_ok (labels h)
  && negb (first_is_digit (last (labels h) EmptyString)).

(** Host parsing: the domain in lower case. *)
Definition parse_host (h : string) : option string :=
  if host_ok (toLowerCase h) then Some (toLowerCase h) else None.

(** The serialization of a port number. *)
Definition port_string (n : N) : string :=
  NilEmpty.string_of_uint (N.to_uint n).

(** Port state: no port text or an empty one leaves the port unset; digits
    give a number that must fit 16 bits and that is dropped when it is the
    default port of the scheme; anything else fails.  The [port] getter is the
    empty string for an unset port. *)
Definition parse_port (p : option string) (dflt : N) : option string :=
  match p with
  | None => Some EmptyString
  | Some EmptyString => Some EmptyString
  | Some d =>
      match NilEmpty.uint_of_string d with
      | Some u =>
          let n := N.of_uint u in
          if (n <=? 65535)%N then
            Some (if (n =? dflt)%N then EmptyString else port_string n)
          else None
      | None => None
      end
  end.

(** The port as written in the input, when the input has the shape of the
    fragment and a colon follows the host. *)
Definition written_port (s : string) : option string :=
  match scan_scheme s with
  | Some (_, rest) => snd (split_colon (authority (skip_slashes rest)))
  | None => None
  end.

(** [new URL(s)] on the fragment. *)
Definition parse (s : string) : option URL :=
  match scan_scheme s with
  | Some (scheme, rest) =>
      match default_port scheme with
      | Some dflt =>
          let (h, p) := split_colon (authority (skip_slashes rest)) in
          match parse_host h, parse_port p dflt with
          | Some host, Some port =>
              Some {| protocol := scheme ++ ":";
                      hostname := host;
                      port := port;
                      origin := scheme ++ "://" ++ host
                                ++ (if truthy port then ":" ++ port else "") |}
          | _, _ => None
          end
      | None => None
      end
  | None => None
  end.

End Url.


(** ** The specification's vocabulary *)

(** The effective current-site string of the composer: the explicit argument
    when it is given and not empty, else the ambient location when there is
    one, else nothing. *)
Definition effectiveCurrentSite (currentSite window : option string)
  : option string :=
  match currentSite with
  | Some c => if truthy c then Some c else window
  | None => window
  end.

(** The composer as the specification words it: from the effective
    current-site string, the finder's position or the sentinel, then the
    wraparound calculator and the two array reads. *)
Definition composeNavigation (new_URL : string -> option URL)
  (sites : list string) (effective : option string) : M WebRingNavigation :=
  call FnCalculateWebRingNavigation
    (if Z.of_nat (List.length sites) =? 0 then
       ret {| prev := Null; next := Null |}
     else
       currentIndex <-
         match effective with
         | Some c => findCurrentSiteIndex new_URL sites c
         | None => ret (-1)
         end ;;
       ix <- calculateNavigationIndices currentIndex
               (Z.of_nat (List.length sites)) ;;
       ret {| prev := array_get sites (prevIndex ix);
              next := array_get sites (nextIndex ix) |}).

(** [normalizeOrigin] applied to its own result. *)
Definition normalizeOrigin_twice (new_URL : string -> option URL) (s : string)
  : M string :=
  once <- normalizeOrigin new_URL s ;;
  normalizeOrigin new_URL once.

(** The number that a written port denotes. *)
Definition port_number (d : string) : option N :=
  match NilEmpty.uint_of_string d with
  | Some u => Some (N.of_uint u)
  | None => None
  end.

(** The characters of a host of the model's fragment. *)
Definition host_char (c : ascii) : bool :=
  Url.is_label_char c || Ascii.eqb c ".".

(** The port getter of a parsed URL of the model's fragment: unset, or the
    decimal form of a 16-bit number other than the scheme's default. *)
Definition port_ok (dflt : N) (port : string) : Prop :=
  port = ""
  \/ exists n, (n <= 65535)%N /\ n <> dflt /\ port = Url.port_string n.

(** The three sites of the specification's examples. *)
Definition ring : list string :=
  ["https://a.example"; "https://b.example"; "https://c.example"].

(** The string that [normalizeOrigin] returns. *)
Definition normalizedOrigin (new_URL : string -> option URL) (s : string)
  : string :=
  match outcome (normalizeOrigin new_URL s) with
  | Some v => v
  | None => s
  end.

(** A list in which no two entries at different positions pass the finder's
    test against each other. *)
Definition distinct_sites (new_URL : string -> option URL)
  (sites : list string) : Prop :=
  forall i j a b,
    nth_error sites i = Some a -> nth_error sites j = Some b ->
    outcome (sameSite new_URL a b) = Some true -> i = j.



(** The default port of the scheme of a [protocol] getter, as the URL
    Standard lists them; [None] for a scheme without one. *)
Definition scheme_default_port (protocol : string) : option N :=
  if (protocol =? "http:")%string then Some 80%N
  else if (protocol =? "https:")%string then Some 443%N
  else if (protocol =? "ws:")%string then Some 80%N
  else if (protocol =? "wss:")%string then Some 443%N
  else if (protocol =? "ftp:")%string then Some 21%N
  else None.

(** The [port] getter as the URL Standard defines it, from the port number
    explicitly present in the input ([None] when the input has none) and the
    [protocol] getter: empty when no port is present or when the port is the
    default port of the scheme, else the port in decimal. *)
Definition port_getter (written : option N) (protocol : string) : string :=
  match written with
  | None => ""
  | Some n =>
      match scheme_default_port protocol with
      | Some d => if (d =? n)%N then "" else Url.port_string n
      | None => Url.port_string n
      end
  end.

(** The port number explicitly present in an input, read by the model of the
    URL constructor: the digits after the colon that follows the host. *)
Definition model_written_port (s : string) : option N :=
  match Url.written_port s with
  | Some d => if (d =? "")%string then None else port_number d
  | None => None
  end.

(** Case analysis on the eight bits of a character. *)
Ltac ascii_cases c :=
  destruct c as [[|] [|] [|] [|] [|] [|] [|] [|]].

(** ** Laws of the monad *)

Lemma outcome_ret {A} (a : A) : outcome (ret a) = Some a.
Proof. reflexivity. Qed.

Lemma outcome_call {A} (f : callee) (m : M A) : outcome (call f m) = outcome m.
Proof. reflexivity. Qed.

Lemma outcome_bind {A B} (m : M A) (f : A -> M B) :
  outcome (bind m f) =
  match outcome m with
  | Some a => outcome (f a)
  | None => None
  end.
Proof.
  destruct m as [t [a|]]; simpl; [|reflexivity].
  destruct (f a); reflexivity.
Qed.

Lemma outcome_try_catch {A} (m h : M A) :
  outcome (try_catch m h) =
  match outcome m with
  | Some a => Some a
  | None => outcome h
  end.
Proof.
  destruct m as [t [a|]]; simpl; [reflexivity|].
  destruct h; reflexivity.
Qed.

Lemma trace_call {A} (f : callee) (m : M A) : trace (call f m) = f :: trace m.
Proof. reflexivity. Qed.

Lemma trace_bind {A B} (m : M A) (f : A -> M B) :
  trace (bind m f) =
  (trace m ++ match outcome m with
              | Some a => trace (f a)
              | None => []
              end)%list.
Proof.
  destruct m as [t [a|]]; simpl.
  - destruct (f a); reflexivity.
  - rewrite app_nil_r. reflexivity.
Qed.

(** ** The helpers never throw *)

Section Totality.

Variable new_URL : string -> option URL.

Lemma normalizeOrigin_parsed s u :
  new_URL s = Some u ->
  outcome (normalizeOrigin new_URL s) =
  Some (protocol u ++ "//" ++ replace_leading_www (toLowerCase (hostname u))
        ++ (if truthy (port u) then ":" ++ port u else "")).
Proof.
  intros H. unfold normalizeOrigin, construct_URL. rewrite H. reflexivity.
Qed.

Lemma normalizeOrigin_fallback s :
  new_URL s = None ->
  normalizeOrigin new_URL s
  = ([FnNormalizeOrigin], Some (replace_scheme_www s)).
Proof.
  intros H. unfold normalizeOrigin, construct_URL. rewrite H. reflexivity.
Qed.

Lemma normalizeOrigin_returns s :
  exists v, outcome (normalizeOrigin new_URL s) = Some v.
Proof.
  destruct (new_URL s) as [u|] eqn:E.
  - eexists. apply normalizeOrigin_parsed, E.
  - eexists. rewrite normalizeOrigin_fallback by exact E. reflexivity.
Qed.

Lemma sameSite_parsed cur site su cu a b :
  new_URL site = Some su -> new_URL cur = Some cu ->
  outcome (normalizeOrigin new_URL (origin su)) = Some a ->
  outcome (normalizeOrigin new_URL (origin cu)) = Some b ->
  outcome (sameSite new_URL cur site) = Some (a =? b)%string.
Proof.
  intros Hs Hc Ha Hb. unfold sameSite.
  rewrite outcome_try_catch, outcome_bind.
  unfold construct_URL at 1. rewrite Hs. simpl outcome at 1. cbv iota.
  rewrite outcome_bind. unfold construct_URL at 1. rewrite Hc.
  simpl outcome at 1. cbv iota.
  rewrite outcome_bind, Ha, outcome_bind, Hb. reflexivity.
Qed.

Lemma sameSite_fallback cur site :
  new_URL site = None \/ new_URL cur = None ->
  sameSite new_URL cur site = ([], Some (site =? cur)%string).
Proof.
  intros H. unfold sameSite, construct_URL.
  destruct (new_URL site) as [su|]; [|reflexivity].
  destruct H as [H|H]; [discriminate|]. rewrite H. reflexivity.
Qed.

Lemma sameSite_returns cur site :
  exists b, outcome (sameSite new_URL cur site) = Some b.
Proof.
  destruct (new_URL site) as [su|] eqn:Es.
  - destruct (new_URL cur) as [cu|] eqn:Ec.
    + destruct (normalizeOrigin_returns (origin su)) as [a Ha].
      destruct (normalizeOrigin_returns (origin cu)) as [b Hb].
      eexists. eapply sameSite_parsed; eassumption.
    + eexists. rewrite sameSite_fallback by (right; exact Ec). reflexivity.
  - eexists. rewrite sameSite_fallback by (left; exact Es). reflexivity.
Qed.

End Totality.

(** ** [findIndex] *)

Lemma findIndex_from_range {A} (p : A -> M bool) (a : list A) :
  (forall x, exists b, outcome (p x) = Some b) ->
  forall i, exists k,
    outcome (findIndex_from p a i) = Some k
    /\ (k = -1 \/ i <= k < i + Z.of_nat (List.length a)).
Proof.
  intros Hp. induction a as [|x a IH]; intros i.
  - exists (-1). split; [reflexivity | left; reflexivity].
  - cbn [findIndex_from]. rewrite outcome_bind.
    destruct (Hp x) as [b Hb]. rewrite Hb. destruct b.
    + exists i. split; [reflexivity|]. right. cbn [List.length]. lia.
    + destruct (IH (i + 1)) as [k [Hk Hr]]. exists k. split; [exact Hk|].
      destruct Hr as [Hr|Hr]; [left; exact Hr | right; cbn [List.length]; lia].
Qed.

Lemma findIndex_from_none {A} (p : A -> M bool) (a : list A) :
  (forall x, In x a -> outcome (p x) = Some false) ->
  forall i, outcome (findIndex_from p a i) = Some (-1).
Proof.
  induction a as [|x a IH]; intros Hp i; [reflexivity|].
  cbn [findIndex_from]. rewrite outcome_bind, (Hp x) by (left; reflexivity).
  apply IH. intros y Hy. apply Hp. right. exact Hy.
Qed.

Lemma findCurrentSiteIndex_range new_URL sites cur :
  exists k,
    outcome (findCurrentSiteIndex new_URL sites cur) = Some k
    /\ (k = -1 \/ 0 <= k < Z.of_nat (List.length sites)).
Proof.
  unfold findCurrentSiteIndex, findIndex. rewrite outcome_call.
  destruct (findIndex_from_range (sameSite new_URL cur) sites
              (sameSite_returns new_URL cur) 0) as [k [Hk Hr]].
  exists k. split; [exact Hk|]. destruct Hr as [Hr|Hr]; [left|right]; lia.
Qed.

(** ** Array reads *)

Lemma array_get_in_range (a : list string) (i : Z) :
  0 <= i < Z.of_nat (List.length a) ->
  exists s, array_get a i = Str s /\ In s a
            /\ nth_error a (Z.to_nat i) = Some s.
Proof.
  intros Hi. unfold array_get.
  destruct (Z.ltb_spec i 0) as [Hlt|_]; [lia|].
  destruct (nth_error a (Z.to_nat i)) as [s|] eqn:E.
  - exists s. split; [reflexivity|]. split; [|reflexivity].
    eapply nth_error_In, E.
  - apply nth_error_None in E. lia.
Qed.

Lemma array_get_last (a : list string) :
  a <> [] -> array_get a (Z.of_nat (List.length a) - 1) = Str (last a "").
Proof.
  intros Ha.
  destruct (array_get_in_range a (Z.of_nat (List.length a) - 1))
    as [s [Hs [_ Hn]]].
  { destruct a; [congruence | cbn [List.length]; lia]. }
  rewrite Hs. f_equal.
  destruct (exists_last Ha) as [a' [x ->]].
  rewrite last_last. rewrite length_app in Hn. cbn [List.length] in Hn.
  replace (Z.to_nat (Z.of_nat (List.length a' + 1) - 1)) with (List.length a')
    in Hn by lia.
  rewrite nth_error_app2, Nat.sub_diag in Hn by lia.
  cbn in Hn. congruence.
Qed.

Lemma array_get_first (a : list string) :
  a <> [] -> array_get a 0 = Str (hd "" a).
Proof. destruct a; [congruence | reflexivity]. Qed.

(** ** The composer *)

Lemma calculateNavigationIndices_outcome (p n : Z) :
  outcome (calculateNavigationIndices p n) =
  Some (if p <? 0 then {| prevIndex := n - 1; nextIndex := 0 |}
        else {| prevIndex := if p =? 0 then n - 1 else p - 1;
                nextIndex := if p =? n - 1 then 0 else p + 1 |}).
Proof.
  unfold calculateNavigationIndices. rewrite outcome_call.
  destruct (p <? 0); reflexivity.
Qed.

Lemma calculateWebRingNavigation_effective new_URL sites currentSite window :
  calculateWebRingNavigation new_URL sites currentSite window =
  composeNavigation new_URL sites (effectiveCurrentSite currentSite window).
Proof.
  unfold calculateWebRingNavigation, composeNavigation, effectiveCurrentSite.
  destruct currentSite as [c|]; [destruct (truthy c)|];
    destruct window; reflexivity.
Qed.

Lemma composeNavigation_at new_URL sites effective k :
  sites <> [] ->
  match effective with
  | Some c => outcome (findCurrentSiteIndex new_URL sites c) = Some k
  | None => k = -1
  end ->
  outcome (composeNavigation new_URL sites effective) =
  match outcome (calculateNavigationIndices k (Z.of_nat (List.length sites)))
  with
  | Some ix => Some {| prev := array_get sites (prevIndex ix);
                       next := array_get sites (nextIndex ix) |}
  | None => None
  end.
Proof.
  intros Hne Hk. unfold composeNavigation. rewrite outcome_call.
  destruct (Z.eqb_spec (Z.of_nat (List.length sites)) 0) as [E|_].
  { destruct sites; [congruence | cbn [List.length] in E; lia]. }
  rewrite outcome_bind.
  assert (outcome match effective with
                  | Some c => findCurrentSiteIndex new_URL sites c
                  | None => ret (-1)
                  end = Some k) as ->.
  { destruct effective; [exact Hk | subst k; reflexivity]. }
  rewrite outcome_bind.
  destruct (outcome (calculateNavigationIndices k _)); reflexivity.
Qed.

Lemma navigation_at_position new_URL sites effective k :
  sites <> [] ->
  match effective with
  | Some c => outcome (findCurrentSiteIndex new_URL sites c) = Some k
  | None => k = -1
  end ->
  (k = -1 \/ 0 <= k < Z.of_nat (List.length sites)) ->
  let n := Z.of_nat (List.length sites) in
  exists p q,
    outcome (composeNavigation new_URL sites effective)
    = Some {| prev := Str p; next := Str q |}
    /\ nth_error sites (Z.to_nat (if k <? 0 then n - 1 else (k - 1) mod n))
       = Some p
    /\ nth_error sites (Z.to_nat (if k <? 0 then 0 else (k + 1) mod n))
       = Some q.
Proof.
  intros Hne Hk Hr n.
  rewrite (composeNavigation_at new_URL sites effective k Hne Hk).
  rewrite calculateNavigationIndices_outcome. fold n.
  assert (0 < n) as Hn.
  { subst n. destruct sites; [congruence | cbn [List.length]; lia]. }
  set (pi := if k <? 0 then n - 1 else (k - 1) mod n).
  set (ni := if k <? 0 then 0 else (k + 1) mod n).
  assert (prevIndex (if k <? 0
                     then {| prevIndex := n - 1; nextIndex := 0 |}
                     else {| prevIndex := if k =? 0 then n - 1 else k - 1;
                             nextIndex := if k =? n - 1 then 0 else k + 1 |})
          = pi) as Hp.
  { subst pi. destruct (Z.ltb_spec k 0); [reflexivity|]. cbn [prevIndex].
    destruct (Z.eqb_spec k 0) as [->|Hk0].
    - apply Z.mod_unique with (q := -1); lia.
    - symmetry. apply Z.mod_small. lia. }
  assert (nextIndex (if k <? 0
                     then {| prevIndex := n - 1; nextIndex := 0 |}
                     else {| prevIndex := if k =? 0 then n - 1 else k - 1;
                             nextIndex := if k =? n - 1 then 0 else k + 1 |})
          = ni) as Hq.
  { subst ni. destruct (Z.ltb_spec k 0); [reflexivity|]. cbn [nextIndex].
    destruct (Z.eqb_spec k (n - 1)) as [->|Hk1].
    - replace (n - 1 + 1) with n by lia. symmetry. apply Z.mod_same. lia.
    - symmetry. apply Z.mod_small. lia. }
  rewrite Hp, Hq.
  assert (0 <= pi < n) as Hpi.
  { subst pi. destruct (Z.ltb_spec k 0); [lia|]. apply Z.mod_pos_bound, Hn. }
  assert (0 <= ni < n) as Hni.
  { subst ni. destruct (Z.ltb_spec k 0); [lia|]. apply Z.mod_pos_bound, Hn. }
  destruct (array_get_in_range sites pi Hpi) as [p [Ep [_ Np]]].
  destruct (array_get_in_range sites ni Hni) as [q [Eq [_ Nq]]].
  exists p, q. rewrite Ep, Eq. auto.
Qed.

Lemma navigation_nonempty new_URL sites currentSite window :
  sites <> [] ->
  exists p q,
    outcome (calculateWebRingNavigation new_URL sites currentSite window)
    = Some {| prev := Str p; next := Str q |}
    /\ In p sites /\ In q sites.
Proof.
  intros Hne. rewrite calculateWebRingNavigation_effective.
  assert (exists k,
            match effectiveCurrentSite currentSite window with
            | Some c => outcome (findCurrentSiteIndex new_URL sites c) = Some k
            | None => k = -1
            end
            /\ (k = -1 \/ 0 <= k < Z.of_nat (List.length sites)))
    as [k [Hk Hr]].
  { destruct (effectiveCurrentSite currentSite window) as [c|].
    - apply findCurrentSiteIndex_range.
    - exists (-1). split; [reflexivity | left; reflexivity]. }
  destruct (navigation_at_position new_URL sites _ k Hne Hk Hr)
    as [p [q [E [Np Nq]]]].
  exists p, q. split; [exact E|].
  split; eapply nth_error_In; eassumption.
Qed.

(** ** Properties that hold for every URL parser *)

(** C1: for a non-empty site list and any current-site value (explicit,
    ambient, malformed or absent), the fields [prev] and [next] of the result
    are strings, not [null] or [undefined], and both are entries of the
    list. *)
Theorem navigation_members new_URL sites currentSite window :
  sites <> [] ->
  exists p q,
    outcome (calculateWebRingNavigation new_URL sites currentSite window)
    = Some {| prev := Str p; next := Str q |}
    /\ In p sites /\ In q sites.
Proof. apply navigation_nonempty. Qed.

Lemma navigation_members_witness :
  ring <> []
  /\ exists p q,
       outcome (calculateWebRingNavigation Url.parse ring
                  (Some "not a url") (Some "https://www.c.example"))
       = Some {| prev := Str p; next := Str q |}
       /\ In p ring /\ In q ring.
Proof.
  split; [discriminate|].
  apply (navigation_members Url.parse ring (Some "not a url")
           (Some "https://www.c.example")).
  discriminate.
Defined.

(** C2: for the empty site list the composer returns
    [{ prev: null, next: null }] whatever the current-site argument and the
    ambient location are, and the only function entered is the composer
    itself: neither the position finder nor the wraparound calculator runs. *)
Theorem empty_ring_short_circuit new_URL currentSite window :
  calculateWebRingNavigation new_URL [] currentSite window
  = ([FnCalculateWebRingNavigation], Some {| prev := Null; next := Null |})
  /\ ~ In FnFindCurrentSiteIndex
       (trace (calculateWebRingNavigation new_URL [] currentSite window))
  /\ ~ In FnCalculateNavigationIndices
       (trace (calculateWebRingNavigation new_URL [] currentSite window)).
Proof.
  assert (calculateWebRingNavigation new_URL [] currentSite window
          = ([FnCalculateWebRingNavigation],
             Some {| prev := Null; next := Null |})) as E by reflexivity.
  rewrite E. split; [reflexivity|].
  split; intros [H|[]]; discriminate H.
Qed.

(** C3: for a list of length [n > 0] and a position [0 <= p < n] the
    wraparound calculator returns the previous index [p - 1], or [n - 1] when
    [p = 0], and the next index [p + 1], or [0] when [p = n - 1]; so with a
    list of three entries, a current site found at position 0 gives
    [prev = L[2]] and [next = L[1]], and one found at position 2 gives
    [prev = L[1]] and [next = L[0]]. *)
Theorem wraparound_found new_URL n p a b c currentSite window cur :
  0 < n -> 0 <= p < n ->
  effectiveCurrentSite currentSite window = Some cur ->
  (exists ix,
     outcome (calculateNavigationIndices p n) = Some ix
     /\ (p = 0 -> prevIndex ix = n - 1)
     /\ (p <> 0 -> prevIndex ix = p - 1)
     /\ (p = n - 1 -> nextIndex ix = 0)
     /\ (p <> n - 1 -> nextIndex ix = p + 1)
     /\ prevIndex ix = (p - 1) mod n
     /\ nextIndex ix = (p + 1) mod n)
  /\ (outcome (findCurrentSiteIndex new_URL [a; b; c] cur) = Some 0 ->
      outcome (calculateWebRingNavigation new_URL [a; b; c] currentSite window)
      = Some {| prev := Str c; next := Str b |})
  /\ (outcome (findCurrentSiteIndex new_URL [a; b; c] cur) = Some 2 ->
      outcome (calculateWebRingNavigation new_URL [a; b; c] currentSite window)
      = Some {| prev := Str b; next := Str a |}).
Proof.
  intros Hn Hp He. split; [|split].
  - eexists. split; [apply calculateNavigationIndices_outcome|].
    destruct (Z.ltb_spec p 0); [lia|]. cbn [prevIndex nextIndex].
    destruct (Z.eqb_spec p 0) as [H0|H0];
      destruct (Z.eqb_spec p (n - 1)) as [H1|H1];
      repeat split; intros; try lia; try congruence.
    all: try (apply Z.mod_unique with (q := -1); lia).
    all: try (apply Z.mod_unique with (q := 1); lia).
    all: try (apply Z.mod_unique with (q := 0); lia).
  - intros Hk. rewrite calculateWebRingNavigation_effective, He.
    rewrite (composeNavigation_at new_URL [a; b; c] (Some cur) 0)
      by (discriminate || exact Hk).
    reflexivity.
  - intros Hk. rewrite calculateWebRingNavigation_effective, He.
    rewrite (composeNavigation_at new_URL [a; b; c] (Some cur) 2)
      by (discriminate || exact Hk).
    reflexivity.
Qed.

Lemma wraparound_found_witness :
  0 < 3 /\ 0 <= 0 < 3
  /\ effectiveCurrentSite (Some "https://a.example") None
     = Some "https://a.example"
  /\ outcome (calculateWebRingNavigation Url.parse ring
                (Some "https://a.example") None)
     = Some {| prev := Str "https://c.example";
               next := Str "https://b.example" |}.
Proof.
  split; [lia|]. split; [lia|]. split; [reflexivity|].
  apply (wraparound_found Url.parse 3 0 "https://a.example"
           "https://b.example" "https://c.example"
           (Some "https://a.example") None "https://a.example");
    [lia | lia | reflexivity | reflexivity].
Defined.

(** C4: for a non-empty site list, when the position is the sentinel [-1]
    (the finder did not find the current site, or no current-site string was
    determined at all) the calculator returns the last index and index 0,
    and the result is [prev] = the last entry and [next] = the first entry. *)
Theorem sentinel_hub new_URL sites currentSite window :
  sites <> [] ->
  match effectiveCurrentSite currentSite window with
  | Some cur => outcome (findCurrentSiteIndex new_URL sites cur) = Some (-1)
  | None => True
  end ->
  outcome (calculateNavigationIndices (-1) (Z.of_nat (List.length sites)))
  = Some {| prevIndex := Z.of_nat (List.length sites) - 1; nextIndex := 0 |}
  /\ outcome (calculateWebRingNavigation new_URL sites currentSite window)
     = Some {| prev := Str (last sites ""); next := Str (hd "" sites) |}.
Proof.
  intros Hne Hk. split; [reflexivity|].
  rewrite calculateWebRingNavigation_effective.
  rewrite (composeNavigation_at new_URL sites _ (-1) Hne).
  - rewrite calculateNavigationIndices_outcome. cbn [Z.ltb Z.compare].
    cbn [prevIndex nextIndex].
    rewrite array_get_last, array_get_first by exact Hne. reflexivity.
  - destruct (effectiveCurrentSite currentSite window);
      [exact Hk | reflexivity].
Qed.

Lemma sentinel_hub_witness :
  ring <> []
  /\ outcome (findCurrentSiteIndex Url.parse ring "https://d.example")
     = Some (-1)
  /\ outcome (calculateWebRingNavigation Url.parse ring
                (Some "https://d.example") None)
     = Some {| prev := Str "https://c.example";
               next := Str "https://a.example" |}.
Proof.
  split; [discriminate|]. split; [reflexivity|].
  apply (sentinel_hub Url.parse ring (Some "https://d.example") None);
    [discriminate | reflexivity].
Defined.

(** For a non-empty list the log does show the calculator, and the finder
    whenever a current-site string was determined. *)
Lemma nonempty_ring_runs_calculator new_URL sites currentSite window :
  sites <> [] ->
  In FnCalculateNavigationIndices
    (trace (calculateWebRingNavigation new_URL sites currentSite window))
  /\ (effectiveCurrentSite currentSite window <> None ->
      In FnFindCurrentSiteIndex
        (trace (calculateWebRingNavigation new_URL sites currentSite window))).
Proof.
  intros Hne. rewrite calculateWebRingNavigation_effective.
  unfold composeNavigation. rewrite trace_call.
  destruct (Z.eqb_spec (Z.of_nat (List.length sites)) 0) as [E|_].
  { destruct sites; [congruence | cbn [List.length] in E; lia]. }
  rewrite trace_bind.
  set (pos := match effectiveCurrentSite currentSite window with
              | Some c => findCurrentSiteIndex new_URL sites c
              | None => ret (-1)
              end).
  assert (exists k, outcome pos = Some k) as [k Hk].
  { subst pos. destruct (effectiveCurrentSite currentSite window) as [c|].
    - destruct (findCurrentSiteIndex_range new_URL sites c) as [k [Hk _]].
      exists k. exact Hk.
    - exists (-1). reflexivity. }
  rewrite Hk, trace_bind. split.
  - right. apply in_or_app. right. apply in_or_app. left. left. reflexivity.
  - intros He. right. apply in_or_app. left. subst pos.
    destruct (effectiveCurrentSite currentSite window) as [c|];
      [left; reflexivity | congruence].
Qed.

(** A ring of one site: the site is its own neighbour on both sides. *)
Lemma single_site_ring new_URL site currentSite window :
  outcome (calculateWebRingNavigation new_URL [site] currentSite window)
  = Some {| prev := Str site; next := Str site |}.
Proof.
  destruct (navigation_nonempty new_URL [site] currentSite window)
    as [p [q [E [[<-|[]] [<-|[]]]]]]; [discriminate|].
  exact E.
Qed.

(** ** The fallback substitution *)

Lemma match_prefix_i_spec p :
  forall s g r,
    match_prefix_i p s = Some (g, r) -> s = g ++ r /\ toLowerCase g = p.
Proof.
  induction p as [|a p IH]; intros s g r H.
  - destruct s; inversion H; subst; split; reflexivity.
  - destruct s as [|b s]; [discriminate|]. cbn [match_prefix_i] in H.
    destruct (Ascii.eqb_spec a (lower_ascii b)) as [->|]; [|discriminate].
    destruct (match_prefix_i p s) as [[g' r']|] eqn:E; [|discriminate].
    inversion H; subst. destruct (IH _ _ _ E) as [-> <-].
    split; reflexivity.
Qed.

Lemma replace_after_spec scheme s t :
  replace_after scheme s = Some t ->
  exists g w r,
    s = g ++ w ++ r /\ t = g ++ r
    /\ toLowerCase g = scheme /\ toLowerCase w = "www.".
Proof.
  unfold replace_after. intros H.
  destruct (match_prefix_i scheme s) as [[g r]|] eqn:E1; [|discriminate].
  destruct (match_prefix_i "www." r) as [[w r']|] eqn:E2; [|discriminate].
  inversion H; subst.
  destruct (match_prefix_i_spec _ _ _ _ E1) as [-> Hg].
  destruct (match_prefix_i_spec _ _ _ _ E2) as [-> Hw].
  exists g, w, r'. auto.
Qed.

Lemma replace_scheme_www_spec s :
  replace_scheme_www s = s
  \/ exists g w r,
       s = g ++ w ++ r /\ replace_scheme_www s = g ++ r
       /\ (toLowerCase g = "http://" \/ toLowerCase g = "https://")
       /\ toLowerCase w = "www.".
Proof.
  unfold replace_scheme_www.
  destruct (replace_after "https://" s) as [t|] eqn:E1.
  - right. destruct (replace_after_spec _ _ _ E1) as [g [w [r [? [? [? ?]]]]]].
    exists g, w, r. auto.
  - destruct (replace_after "http://" s) as [t|] eqn:E2; [|left; reflexivity].
    right. destruct (replace_after_spec _ _ _ E2) as [g [w [r [? [? [? ?]]]]]].
    exists g, w, r. auto.
Qed.

(** C5: the composer and the origin normalizer are total, whatever the URL
    constructor does: no exception escapes either of them, the normalizer
    always returns a string, and when the constructor throws, that string is
    the input itself, changed at most by the removal of one leading [www.]
    (in any case) right after a leading [http://] or [https://]. *)
Theorem no_exception_escapes new_URL sites currentSite window s :
  (exists r,
     outcome (calculateWebRingNavigation new_URL sites currentSite window)
     = Some r)
  /\ (exists v, outcome (normalizeOrigin new_URL s) = Some v)
  /\ (new_URL s = None ->
      outcome (normalizeOrigin new_URL s) = Some (replace_scheme_www s)
      /\ (replace_scheme_www s = s
          \/ exists g w r,
               s = g ++ w ++ r /\ replace_scheme_www s = g ++ r
               /\ (toLowerCase g = "http://" \/ toLowerCase g = "https://")
               /\ toLowerCase w = "www.")).
Proof.
  split; [|split].
  - destruct sites as [|x sites].
    + eexists. reflexivity.
    + destruct (navigation_nonempty new_URL (x :: sites) currentSite window)
        as [p [q [E _]]]; [discriminate|].
      eexists. exact E.
  - apply normalizeOrigin_returns.
  - intros H. split.
    + rewrite normalizeOrigin_fallback by exact H. reflexivity.
    + apply replace_scheme_www_spec.
Qed.

Lemma no_exception_escapes_witness :
  Url.parse "HTTP://WWW.bad host" = None
  /\ outcome (normalizeOrigin Url.parse "HTTP://WWW.bad host")
     = Some "HTTP://bad host".
Proof.
  split; [reflexivity|].
  apply (no_exception_escapes Url.parse ring None None "HTTP://WWW.bad host").
  reflexivity.
Defined.

(** C7: when the URL constructor throws on the list entry or on the
    current-site string, the finder's test for that entry is plain string
    equality and the normalizer is not entered; hence for a current-site
    string on which the constructor throws and a list that does not contain
    it, the finder returns [-1] and the composer's result is the one of the
    not-found (hub) case. *)
Theorem unparsable_falls_back_to_equality
  new_URL sites currentSite window cur site :
  (new_URL site = None \/ new_URL cur = None ->
   sameSite new_URL cur site = ([], Some (site =? cur)%string))
  /\ (new_URL cur = None -> ~ In cur sites ->
      outcome (findCurrentSiteIndex new_URL sites cur) = Some (-1)
      /\ (effectiveCurrentSite currentSite window = Some cur ->
          outcome (calculateWebRingNavigation new_URL sites currentSite window)
          = outcome (calculateWebRingNavigation new_URL sites None None)
          /\ (sites <> [] ->
              outcome (calculateWebRingNavigation new_URL sites
                         currentSite window)
              = Some {| prev := Str (last sites "");
                        next := Str (hd "" sites) |}))).
Proof.
  split; [apply sameSite_fallback|].
  intros Hc Hn.
  assert (outcome (findCurrentSiteIndex new_URL sites cur) = Some (-1)) as Hf.
  { unfold findCurrentSiteIndex, findIndex. rewrite outcome_call.
    apply findIndex_from_none. intros x Hx.
    rewrite sameSite_fallback by (right; exact Hc).
    cbn [outcome snd]. f_equal. apply String.eqb_neq. congruence. }
  split; [exact Hf|]. intros He.
  assert (sites <> [] ->
            outcome (composeNavigation new_URL sites (Some cur))
            = outcome (composeNavigation new_URL sites None)) as Hsame.
  { intros Hne.
    rewrite (composeNavigation_at new_URL sites (Some cur) (-1) Hne Hf).
    rewrite (composeNavigation_at new_URL sites None (-1) Hne eq_refl).
    reflexivity. }
  split.
  - rewrite !calculateWebRingNavigation_effective, He.
    cbn [effectiveCurrentSite].
    destruct sites as [|x sites]; [reflexivity|].
    apply Hsame. discriminate.
  - intros Hne. rewrite calculateWebRingNavigation_effective, He.
    rewrite (composeNavigation_at new_URL sites (Some cur) (-1) Hne Hf).
    rewrite calculateNavigationIndices_outcome. cbn [Z.ltb Z.compare].
    cbn [prevIndex nextIndex].
    rewrite array_get_last, array_get_first by exact Hne. reflexivity.
Qed.

Lemma unparsable_falls_back_to_equality_witness :
  Url.parse "not a url" = None
  /\ ~ In "not a url" ring
  /\ outcome (findCurrentSiteIndex Url.parse ring "not a url") = Some (-1)
  /\ outcome (calculateWebRingNavigation Url.parse ring
                (Some "not a url") (Some "https://b.example"))
     = Some {| prev := Str "https://c.example";
               next := Str "https://a.example" |}.
Proof.
  assert (~ In "not a url" ring) as Hn.
  { intros [H|[H|[H|[]]]]; discriminate H. }
  split; [reflexivity|]. split; [exact Hn|].
  destruct (unparsable_falls_back_to_equality Url.parse ring
              (Some "not a url") (Some "https://b.example")
              "not a url" "https://a.example") as [_ H].
  destruct (H eq_refl Hn) as [Hf Hc]. split; [exact Hf|].
  destruct (Hc eq_refl) as [_ Hr]. apply Hr. discriminate.
Defined.

(** C10: the effective current-site string is the explicit argument exactly
    when that argument is given and not empty.  With a non-empty explicit
    argument the whole run (result and functions entered) is the same
    whatever the ambient location is, or when there is none; an empty-string
    argument behaves as an omitted one: the ambient location is used when
    there is one, and the sentinel otherwise. *)
Theorem explicit_argument_wins new_URL sites c window window' :
  (forall currentSite,
     calculateWebRingNavigation new_URL sites currentSite window
     = composeNavigation new_URL sites
         (effectiveCurrentSite currentSite window))
  /\ (c <> "" ->
      effectiveCurrentSite (Some c) window = Some c
      /\ calculateWebRingNavigation new_URL sites (Some c) window
         = calculateWebRingNavigation new_URL sites (Some c) window')
  /\ effectiveCurrentSite (Some "") window = window
  /\ effectiveCurrentSite None window = window
  /\ calculateWebRingNavigation new_URL sites (Some "") window
     = calculateWebRingNavigation new_URL sites None window
  /\ calculateWebRingNavigation new_URL sites None window
     = composeNavigation new_URL sites window.
Proof.
  split; [intros; apply calculateWebRingNavigation_effective|].
  split; [|split; [reflexivity|]; split; [reflexivity|]; split].
  - intros Hc.
    assert (truthy c = true) as Ht.
    { unfold truthy. apply negb_true_iff, String.eqb_neq, Hc. }
    split.
    + unfold effectiveCurrentSite. rewrite Ht. reflexivity.
    + unfold calculateWebRingNavigation. rewrite Ht. reflexivity.
  - rewrite !calculateWebRingNavigation_effective. reflexivity.
  - apply calculateWebRingNavigation_effective.
Qed.

Lemma explicit_argument_wins_witness :
  "https://b.example" <> ""
  /\ calculateWebRingNavigation Url.parse ring (Some "https://b.example")
       (Some "https://c.example")
     = calculateWebRingNavigation Url.parse ring (Some "https://b.example")
         None.
Proof.
  split; [discriminate|].
  apply (explicit_argument_wins Url.parse ring "https://b.example"
           (Some "https://c.example") None).
  discriminate.
Defined.

(** ** Facts about characters and strings *)

Lemma lower_ascii_idempotent c : lower_ascii (lower_ascii c) = lower_ascii c.
Proof. ascii_cases c; reflexivity. Qed.

Lemma label_char_plain c :
  Url.is_label_char c = true ->
  lower_ascii c = c
  /\ Ascii.eqb c ":" = false
  /\ Ascii.eqb c "." = false
  /\ Url.is_delimiter c = false
  /\ (Ascii.eqb c "/" || Ascii.eqb c "\") = false.
Proof.
  ascii_cases c; intros H; try discriminate H; repeat split; reflexivity.
Qed.

Lemma digit_is_label_char c :
  Url.is_digit c = true -> Url.is_label_char c = true.
Proof.
  intros H. unfold Url.is_label_char. rewrite H.
  apply orb_true_iff. left. apply orb_true_r.
Qed.

Lemma append_assoc (a b c : string) : (a ++ b) ++ c = a ++ b ++ c.
Proof.
  induction a as [|x a IH]; [reflexivity|].
  cbn [append]. rewrite IH. reflexivity.
Qed.

Lemma append_cancel_l (a x y : string) : a ++ x = a ++ y -> x = y.
Proof.
  induction a as [|c a IH]; cbn [append]; intros H; [exact H|].
  inversion H. auto.
Qed.

Lemma match_prefix_spec p :
  forall s r, match_prefix p s = Some r -> s = p ++ r.
Proof.
  induction p as [|a p IH]; intros s r H.
  - inversion H. reflexivity.
  - destruct s as [|b s]; [discriminate|]. cbn [match_prefix] in H.
    destruct (Ascii.eqb_spec a b) as [->|]; [|discriminate].
    cbn [append]. f_equal. apply IH, H.
Qed.

(** ** Facts about the URL model: hosts *)

Lemma labels_nonempty h : Url.labels h <> [].
Proof.
  destruct h as [|c h]; cbn [Url.labels]; [discriminate|].
  destruct (Ascii.eqb c "."); [discriminate|].
  destruct (Url.labels h); discriminate.
Qed.

Lemma labels_chars h :
  forallb (Url.all_chars Url.is_label_char) (Url.labels h) = true ->
  Url.all_chars host_char h = true.
Proof.
  induction h as [|c h IH]; [reflexivity|].
  cbn [Url.labels Url.all_chars]. unfold host_char at 1.
  destruct (Ascii.eqb c ".") eqn:Ec.
  - cbn [forallb Url.all_chars andb]. intros H.
    rewrite orb_true_r. apply IH, H.
  - destruct (Url.labels h) as [|l ls] eqn:El.
    { exfalso. eapply labels_nonempty, El. }
    cbn [forallb Url.all_chars]. intros H.
    apply andb_true_iff in H. destruct H as [H1 H2].
    apply andb_true_iff in H1. destruct H1 as [Hc Hl].
    rewrite Hc. cbn [orb andb]. apply IH.
    cbn [forallb]. rewrite Hl, H2. reflexivity.
Qed.

Lemma label_ok_chars l :
  Url.label_ok l = true -> Url.all_chars Url.is_label_char l = true.
Proof.
  unfold Url.label_ok. intros H.
  apply andb_true_iff in H. destruct H as [H _].
  apply andb_true_iff in H. destruct H as [_ H]. exact H.
Qed.

Lemma host_ok_chars h :
  Url.host_ok h = true -> Url.all_chars host_char h = true.
Proof.
  unfold Url.host_ok. intros H.
  apply andb_true_iff in H. destruct H as [H _].
  apply labels_chars. apply forallb_forall. intros l Hl.
  apply label_ok_chars. rewrite forallb_forall in H. apply H, Hl.
Qed.

Lemma host_ok_first h :
  Url.host_ok h = true ->
  exists c t, h = String c t /\ Url.is_label_char c = true.
Proof.
  unfold Url.host_ok. intros H.
  apply andb_true_iff in H. destruct H as [H _].
  destruct h as [|c h]; [discriminate H|].
  exists c, h. split; [reflexivity|].
  cbn [Url.labels] in H. destruct (Ascii.eqb c "."); [discriminate H|].
  destruct (Url.labels h) as [|l ls]; cbn [forallb] in H;
    apply andb_true_iff in H; destruct H as [H _];
    apply label_ok_chars in H; cbn [Url.all_chars] in H;
    apply andb_true_iff in H; apply H.
Qed.

Lemma host_chars_lower h :
  Url.all_chars host_char h = true -> toLowerCase h = h.
Proof.
  induction h as [|c h IH]; [reflexivity|].
  cbn [Url.all_chars toLowerCase]. intros H.
  apply andb_true_iff in H. destruct H as [Hc Hh].
  rewrite (IH Hh). f_equal.
  unfold host_char in Hc. apply orb_true_iff in Hc. destruct Hc as [Hc|Hc].
  - apply label_char_plain, Hc.
  - apply Ascii.eqb_eq in Hc. subst c. reflexivity.
Qed.

Lemma host_ok_lower h : Url.host_ok h = true -> toLowerCase h = h.
Proof. intros H. apply host_chars_lower, host_ok_chars, H. Qed.

(** Removing the leading [www.] label of a host of the fragment leaves a host
    of the fragment. *)
Lemma host_ok_replace_leading_www h :
  Url.host_ok h = true -> Url.host_ok (replace_leading_www h) = true.
Proof.
  intros H. unfold replace_leading_www.
  destruct (match_prefix "www." h) as [r|] eqn:E; [|exact H].
  apply match_prefix_spec in E. subst h.
  unfold Url.host_ok in *. cbn [append Url.labels Ascii.eqb Bool.eqb] in H.
  destruct (Url.labels r) as [|l ls] eqn:El.
  { exfalso. eapply labels_nonempty, El. }
  cbn [forallb] in H. apply andb_true_iff in H. destruct H as [H1 H2].
  apply andb_true_iff in H1. destruct H1 as [_ H1].
  cbn [forallb]. rewrite H1. exact H2.
Qed.

Lemma parse_host_ok h :
  Url.host_ok h = true -> Url.parse_host h = Some h.
Proof.
  intros H. unfold Url.parse_host.
  rewrite (host_ok_lower h H), H. reflexivity.
Qed.

(** ** Facts about the URL model: ports *)

Lemma string_of_uint_digits d :
  Url.all_chars Url.is_digit (NilEmpty.string_of_uint d) = true.
Proof. induction d; cbn; auto. Qed.

Lemma port_string_digits n :
  Url.all_chars Url.is_digit (Url.port_string n) = true.
Proof. apply string_of_uint_digits. Qed.

Lemma port_string_nonempty n : Url.port_string n <> "".
Proof.
  unfold Url.port_string. destruct n as [|p]; [discriminate|].
  pose proof (DecimalN.Unsigned.of_to (N.pos p)) as O.
  remember (N.to_uint (N.pos p)) as u eqn:Eu. clear Eu. intros H.
  pose proof (NilEmpty.usu u) as U. rewrite H in U.
  cbn [NilEmpty.uint_of_string] in U. inversion U as [E].
  rewrite <- E in O. discriminate O.
Qed.

Lemma parse_port_inv p dflt port :
  Url.parse_port p dflt = Some port ->
  (port = ""
   /\ (p = None \/ p = Some ""
       \/ exists d, p = Some d /\ d <> "" /\ port_number d = Some dflt))
  \/ (exists d n,
        p = Some d /\ d <> "" /\ port_number d = Some n /\ n <> dflt
        /\ (n <= 65535)%N /\ port = Url.port_string n).
Proof.
  unfold Url.parse_port, port_number.
  destruct p as [d|]; [|intros H; inversion H; left; auto].
  destruct d as [|c d]; [intros H; inversion H; left; auto|].
  destruct (NilEmpty.uint_of_string (String c d)) as [u|] eqn:Eu;
    [|discriminate].
  cbv zeta.
  destruct (N.leb_spec (N.of_uint u) 65535) as [Hle|_]; [|discriminate].
  destruct (N.eqb_spec (N.of_uint u) dflt) as [E|E]; intros H; inversion H.
  - left. split; [reflexivity|]. right. right.
    exists (String c d). rewrite Eu, E. split; [reflexivity|].
    split; [discriminate | reflexivity].
  - right. exists (String c d), (N.of_uint u). rewrite Eu.
    repeat split; try assumption. discriminate.
Qed.

Lemma parse_port_ok dflt port :
  port_ok dflt port ->
  Url.parse_port (if truthy port then Some port else None) dflt = Some port.
Proof.
  intros [->|[n [Hn [Hd ->]]]]; [reflexivity|].
  assert (truthy (Url.port_string n) = true) as ->.
  { unfold truthy. apply negb_true_iff, String.eqb_neq, port_string_nonempty. }
  unfold Url.parse_port.
  destruct (Url.port_string n) as [|c d] eqn:E.
  { exfalso. eapply port_string_nonempty, E. }
  rewrite <- E. unfold Url.port_string at 1.
  rewrite NilEmpty.usu, DecimalN.Unsigned.of_to.
  destruct (N.leb_spec n 65535); [|lia].
  destruct (N.eqb_spec n dflt); [contradiction | reflexivity].
Qed.

Lemma parse_port_port_ok p dflt port :
  Url.parse_port p dflt = Some port -> port_ok dflt port.
Proof.
  intros H. destruct (parse_port_inv _ _ _ H) as [[-> _]|[d [n H']]].
  - left. reflexivity.
  - right. exists n. tauto.
Qed.

(** ** Facts about the URL model: parsing a serialized origin *)

Lemma host_char_plain c :
  host_char c = true ->
  Ascii.eqb c ":" = false /\ Url.is_delimiter c = false.
Proof.
  unfold host_char. intros H. apply orb_true_iff in H. destruct H as [H|H].
  - apply label_char_plain in H. tauto.
  - apply Ascii.eqb_eq in H. subst c. split; reflexivity.
Qed.

Lemma digits_are_host_chars d :
  Url.all_chars Url.is_digit d = true -> Url.all_chars host_char d = true.
Proof.
  induction d as [|c d IH]; [reflexivity|]. cbn [Url.all_chars]. intros H.
  apply andb_true_iff in H. destruct H as [Hc Hd].
  rewrite (IH Hd). unfold host_char.
  rewrite (digit_is_label_char c Hc). reflexivity.
Qed.

Lemma authority_host h t :
  Url.all_chars host_char h = true ->
  Url.authority (h ++ t) = h ++ Url.authority t.
Proof.
  induction h as [|c h IH]; [reflexivity|]. cbn [Url.all_chars]. intros H.
  apply andb_true_iff in H. destruct H as [Hc Hh].
  cbn [append Url.authority].
  destruct (host_char_plain c Hc) as [_ ->]. rewrite (IH Hh). reflexivity.
Qed.

Lemma split_colon_host h t :
  Url.all_chars host_char h = true ->
  Url.split_colon (h ++ t) =
  (h ++ fst (Url.split_colon t), snd (Url.split_colon t)).
Proof.
  induction h as [|c h IH]; cbn [Url.all_chars]; intros H.
  - cbn [append]. destruct (Url.split_colon t); reflexivity.
  - apply andb_true_iff in H. destruct H as [Hc Hh].
    cbn [append Url.split_colon].
    destruct (host_char_plain c Hc) as [-> _]. rewrite (IH Hh). reflexivity.
Qed.

Lemma append_empty_r (s : string) : s ++ "" = s.
Proof.
  induction s as [|c s IH]; [reflexivity|]. cbn. rewrite IH. reflexivity.
Qed.

Lemma authority_suffix port :
  Url.all_chars Url.is_digit port = true ->
  Url.authority (if truthy port then ":" ++ port else "")
  = (if truthy port then ":" ++ port else "").
Proof.
  intros H. destruct (truthy port); [|reflexivity].
  cbn [append Url.authority Url.is_delimiter Ascii.eqb Bool.eqb orb].
  rewrite <- (append_empty_r port) at 1.
  rewrite authority_host by (apply digits_are_host_chars, H).
  cbn [Url.authority]. rewrite append_empty_r. reflexivity.
Qed.

Lemma split_colon_suffix port :
  Url.split_colon (if truthy port then ":" ++ port else "")
  = ("", if truthy port then Some port else None).
Proof. destruct (truthy port); reflexivity. Qed.

Lemma scan_scheme_special scheme dflt x :
  Url.default_port scheme = Some dflt ->
  Url.scan_scheme ((scheme ++ ":") ++ x) = Some (scheme, x).
Proof.
  unfold Url.default_port.
  repeat match goal with
         | |- context [String.eqb scheme ?k] =>
             destruct (String.eqb_spec scheme k) as [->|_];
             [intros _; reflexivity|]
         end.
  discriminate.
Qed.

Lemma port_ok_digits dflt port :
  port_ok dflt port -> Url.all_chars Url.is_digit port = true.
Proof.
  intros [->|[n [_ [_ ->]]]]; [reflexivity | apply port_string_digits].
Qed.

(** The model reads [scheme://host[:port]] back into its parts. *)
Lemma parse_serialized scheme dflt host port :
  Url.default_port scheme = Some dflt ->
  Url.host_ok host = true ->
  port_ok dflt port ->
  Url.parse ((scheme ++ ":") ++ "//" ++ host
             ++ (if truthy port then ":" ++ port else ""))
  = Some {| protocol := scheme ++ ":";
            hostname := host;
            port := port;
            origin := scheme ++ "://" ++ host
                      ++ (if truthy port then ":" ++ port else "") |}.
Proof.
  intros Hs Hh Hp. unfold Url.parse.
  rewrite (scan_scheme_special scheme dflt _ Hs), Hs.
  destruct (host_ok_first host Hh) as [c [t [E Hc]]].
  assert (Url.skip_slashes
            ("//" ++ host ++ (if truthy port then ":" ++ port else ""))
          = host ++ (if truthy port then ":" ++ port else "")) as ->.
  { rewrite E. cbn [append Url.skip_slashes Ascii.eqb Bool.eqb orb].
    destruct (label_char_plain c Hc) as [_ [_ [_ [_ ->]]]]. reflexivity. }
  rewrite authority_host by (apply host_ok_chars, Hh).
  rewrite authority_suffix by (eapply port_ok_digits, Hp).
  rewrite split_colon_host by (apply host_ok_chars, Hh).
  rewrite split_colon_suffix. cbn [fst snd]. rewrite append_empty_r.
  rewrite (parse_host_ok host Hh), (parse_port_ok dflt port Hp).
  reflexivity.
Qed.

(** What a successful parse of the model tells. *)
Lemma parse_inv s u :
  Url.parse s = Some u ->
  exists scheme rest dflt h p,
    Url.scan_scheme s = Some (scheme, rest)
    /\ Url.default_port scheme = Some dflt
    /\ Url.split_colon (Url.authority (Url.skip_slashes rest)) = (h, p)
    /\ Url.host_ok (hostname u) = true
    /\ hostname u = toLowerCase h
    /\ Url.parse_port p dflt = Some (port u)
    /\ protocol u = scheme ++ ":"
    /\ origin u = scheme ++ "://" ++ hostname u
                  ++ (if truthy (port u) then ":" ++ port u else "").
Proof.
  unfold Url.parse. intros H.
  destruct (Url.scan_scheme s) as [[scheme rest]|]; [|discriminate].
  destruct (Url.default_port scheme) as [dflt|] eqn:Ed; [|discriminate].
  destruct (Url.split_colon (Url.authority (Url.skip_slashes rest)))
    as [h p] eqn:Ec.
  unfold Url.parse_host in H.
  destruct (Url.host_ok (toLowerCase h)) eqn:Eh; [|discriminate].
  destruct (Url.parse_port p dflt) as [q|] eqn:Ep; [|discriminate].
  inversion H; subst u; clear H. cbn [protocol hostname port origin].
  exists scheme, rest, dflt, h, p. repeat split; assumption || reflexivity.
Qed.

Lemma scheme_colon_slashes (scheme x : string) :
  (scheme ++ ":") ++ "//" ++ x = scheme ++ "://" ++ x.
Proof. rewrite append_assoc. reflexivity. Qed.

(** The [origin] getter of a parsed URL parses to the same URL. *)
Lemma parse_origin s u : Url.parse s = Some u -> Url.parse (origin u) = Some u.
Proof.
  intros H.
  destruct (parse_inv s u H)
    as [scheme [rest [dflt [h [p [_ [Hd [_ [Hh [_ [Hp [Epr Eo]]]]]]]]]]]].
  rewrite Eo, <- scheme_colon_slashes.
  rewrite (parse_serialized scheme dflt (hostname u) (port u) Hd Hh
             (parse_port_port_ok _ _ _ Hp)).
  destruct u as [pr ho po og]. cbn [protocol hostname port origin] in *.
  subst pr og. reflexivity.
Qed.

(** On two URLs of the fragment the finder's test compares scheme, host
    without one leading [www.], and port. *)
Lemma sameSite_model cur site cu su :
  Url.parse site = Some su -> Url.parse cur = Some cu ->
  let key u :=
    protocol u ++ "//" ++ replace_leading_www (hostname u)
    ++ (if truthy (port u) then ":" ++ port u else "") in
  outcome (sameSite Url.parse cur site) = Some (key su =? key cu)%string.
Proof.
  intros Hs Hc key.
  assert (forall s u, Url.parse s = Some u ->
            outcome (normalizeOrigin Url.parse (origin u)) = Some (key u))
    as Hkey.
  { intros s u H.
    rewrite (normalizeOrigin_parsed Url.parse _ u (parse_origin s u H)).
    destruct (parse_inv s u H)
      as [_ [_ [_ [_ [_ [_ [_ [_ [Hh _]]]]]]]]].
    rewrite (host_ok_lower _ Hh). reflexivity. }
  apply (sameSite_parsed Url.parse cur site su cu _ _ Hs Hc
           (Hkey _ _ Hs) (Hkey _ _ Hc)).
Qed.

Lemma length_append (a b : string) :
  String.length (a ++ b) = (String.length a + String.length b)%nat.
Proof.
  induction a as [|c a IH]; [reflexivity|]. cbn. rewrite IH. reflexivity.
Qed.

(** ** Properties that depend on what the URL parser returns *)

(** C6: with the ring [https://a.example], [https://b.example],
    [https://c.example] and the current site [https://www.b.example], both
    [https://www.b.example] and [https://b.example] normalize to
    [https://b.example], the finder returns index 1, and the composer returns
    [prev = https://a.example] and [next = https://c.example]. *)
Theorem www_equivalence window :
  outcome (normalizeOrigin Url.parse "https://www.b.example")
  = outcome (normalizeOrigin Url.parse "https://b.example")
  /\ outcome (findCurrentSiteIndex Url.parse ring "https://www.b.example")
     = Some 1
  /\ outcome (calculateWebRingNavigation Url.parse ring
                (Some "https://www.b.example") window)
     = Some {| prev := Str "https://a.example";
               next := Str "https://c.example" |}.
Proof.
  split; [reflexivity|]. split; [reflexivity|].
  rewrite calculateWebRingNavigation_effective. reflexivity.
Qed.


(** On the model of the URL constructor: for a string that the model parses,
    normalizing the output of the normalizer returns that output unchanged
    exactly when the host, in lower case and without one leading [www.], does
    not begin with [www.] again. *)
Lemma normalizeOrigin_idempotent_single_www s u :
  Url.parse s = Some u ->
  outcome (normalizeOrigin_twice Url.parse s)
  = outcome (normalizeOrigin Url.parse s)
  <-> match_prefix "www." (replace_leading_www (toLowerCase (hostname u)))
      = None.
Proof.
  intros H.
  destruct (parse_inv s u H)
    as [scheme [rest [dflt [h [p [_ [Hd [_ [Hh [_ [Hp [Epr _]]]]]]]]]]]].
  pose proof (parse_port_port_ok _ _ _ Hp) as Hport.
  unfold normalizeOrigin_twice.
  rewrite outcome_bind, (normalizeOrigin_parsed Url.parse s u H).
  rewrite (host_ok_lower _ Hh), Epr.
  set (nh := replace_leading_www (hostname u)).
  assert (Url.host_ok nh = true) as Hnh
    by apply host_ok_replace_leading_www, Hh.
  rewrite (normalizeOrigin_parsed Url.parse _ _
             (parse_serialized scheme dflt nh (port u) Hd Hnh Hport)).
  cbn [protocol hostname port]. rewrite (host_ok_lower _ Hnh).
  unfold replace_leading_www at 1.
  destruct (match_prefix "www." nh) as [r|] eqn:E.
  - split; [|discriminate]. intros Heq. exfalso.
    apply match_prefix_spec in E.
    inversion Heq as [Heq']. rewrite !append_assoc in Heq'.
    apply append_cancel_l in Heq'. cbn [append] in Heq'.
    inversion Heq' as [Heq''].
    apply (f_equal String.length) in Heq''.
    rewrite E, !length_append in Heq''. cbn [String.length] in Heq''. lia.
  - split; reflexivity.
Qed.

(** C9, as stated, fails: a port written in the input that is the default
    port of the scheme is dropped by the URL parser, so the result has no
    port suffix although the input has a port. *)
Lemma default_port_is_dropped :
  Url.parse "https://example.com:443" <> None
  /\ Url.written_port "https://example.com:443" = Some "443"
  /\ outcome (normalizeOrigin Url.parse "https://example.com:443")
     = Some "https://example.com"
  /\ ~ (exists q, "https://example.com" = "https://example.com" ++ ":" ++ q).
Proof.
  split; [discriminate|]. split; [reflexivity|]. split; [reflexivity|].
  intros [q Hq]. apply (f_equal String.length) in Hq.
  rewrite length_append in Hq. cbn [String.length append] in Hq. lia.
Qed.

(** ** Further properties: the finder *)

Lemma findIndex_from_first {A} (p : A -> M bool) (a : list A) :
  (forall x, exists b, outcome (p x) = Some b) ->
  forall i, exists k,
    outcome (findIndex_from p a i) = Some k
    /\ ((k = -1 /\ forall x, In x a -> outcome (p x) = Some false)
        \/ (exists j x,
              k = i + Z.of_nat j /\ nth_error a j = Some x
              /\ outcome (p x) = Some true
              /\ forall j' t, (j' < j)%nat -> nth_error a j' = Some t ->
                              outcome (p t) = Some false)).
Proof.
  intros Hp. induction a as [|x a IH]; intros i.
  - exists (-1). split; [reflexivity|]. left. split; [reflexivity|].
    intros x [].
  - cbn [findIndex_from]. rewrite outcome_bind.
    destruct (Hp x) as [b Hb]. rewrite Hb. destruct b.
    + exists i. split; [reflexivity|]. right. exists 0%nat, x.
      split; [cbn; lia|]. split; [reflexivity|]. split; [exact Hb|].
      intros j' t Hj. lia.
    + destruct (IH (i + 1)) as [k [Hk Hr]]. exists k. split; [exact Hk|].
      destruct Hr as [[-> Hall]|[j [y [-> [Hn [Hy Hlt]]]]]].
      * left. split; [reflexivity|]. intros y [<-|Hy]; [exact Hb|].
        apply Hall, Hy.
      * right. exists (S j), y. split; [lia|]. split; [exact Hn|].
        split; [exact Hy|]. intros [|j'] t Hj Ht.
        -- cbn in Ht. inversion Ht; subst t. exact Hb.
        -- cbn in Ht. apply (Hlt j' t); [lia | exact Ht].
Qed.

Lemma findIndex_from_ext {A} (p q : A -> M bool) (a : list A) :
  (forall x, outcome (p x) = outcome (q x)) ->
  forall i, outcome (findIndex_from p a i) = outcome (findIndex_from q a i).
Proof.
  intros H. induction a as [|x a IH]; intros i; [reflexivity|].
  cbn [findIndex_from]. rewrite !outcome_bind, H.
  destruct (outcome (q x)) as [[|]|]; [reflexivity | apply IH | reflexivity].
Qed.

Lemma normalizeOrigin_normalized new_URL s :
  outcome (normalizeOrigin new_URL s) = Some (normalizedOrigin new_URL s).
Proof.
  unfold normalizedOrigin.
  destruct (normalizeOrigin_returns new_URL s) as [v ->]. reflexivity.
Qed.

Lemma sameSite_outcome new_URL cur site :
  outcome (sameSite new_URL cur site) =
  Some match new_URL site, new_URL cur with
       | Some su, Some cu =>
           (normalizedOrigin new_URL (origin su)
            =? normalizedOrigin new_URL (origin cu))%string
       | _, _ => (site =? cur)%string
       end.
Proof.
  destruct (new_URL site) as [su|] eqn:Es.
  - destruct (new_URL cur) as [cu|] eqn:Ec.
    + apply (sameSite_parsed new_URL cur site su cu _ _ Es Ec);
        apply normalizeOrigin_normalized.
    + rewrite sameSite_fallback by (right; exact Ec). reflexivity.
  - rewrite sameSite_fallback by (left; exact Es).
    destruct (new_URL cur); reflexivity.
Qed.

Lemma sameSite_refl new_URL a : outcome (sameSite new_URL a a) = Some true.
Proof.
  rewrite sameSite_outcome. f_equal.
  destruct (new_URL a); apply String.eqb_refl.
Qed.

Lemma findCurrentSiteIndex_first new_URL sites cur :
  exists k,
    outcome (findCurrentSiteIndex new_URL sites cur) = Some k
    /\ ((k = -1
         /\ forall s, In s sites ->
                      outcome (sameSite new_URL cur s) = Some false)
        \/ (0 <= k < Z.of_nat (List.length sites)
            /\ exists s,
                 nth_error sites (Z.to_nat k) = Some s
                 /\ outcome (sameSite new_URL cur s) = Some true
                 /\ forall j t,
                      (j < Z.to_nat k)%nat -> nth_error sites j = Some t ->
                      outcome (sameSite new_URL cur t) = Some false)).
Proof.
  unfold findCurrentSiteIndex, findIndex. rewrite outcome_call.
  destruct (findIndex_from_first (sameSite new_URL cur) sites
              (sameSite_returns new_URL cur) 0) as [k [Hk Hr]].
  exists k. split; [exact Hk|].
  destruct Hr as [Hr|[j [x [-> [Hn [Hx Hlt]]]]]]; [left; exact Hr|].
  right. split.
  - assert (j < List.length sites)%nat
      by (apply nth_error_Some; congruence). lia.
  - exists x. replace (Z.to_nat (0 + Z.of_nat j)) with j by lia. auto.
Qed.

(** X1: the finder never throws and returns the least position whose entry
    passes the test against the current site: either [-1], and then no entry
    passes, or a position in range whose entry passes while every earlier
    entry fails (with duplicate entries the first one wins). *)
Theorem finder_first_match new_URL sites cur :
  exists k,
    outcome (findCurrentSiteIndex new_URL sites cur) = Some k
    /\ ((k = -1
         /\ forall s, In s sites ->
                      outcome (sameSite new_URL cur s) = Some false)
        \/ (0 <= k < Z.of_nat (List.length sites)
            /\ exists s,
                 nth_error sites (Z.to_nat k) = Some s
                 /\ outcome (sameSite new_URL cur s) = Some true
                 /\ forall j t,
                      (j < Z.to_nat k)%nat -> nth_error sites j = Some t ->
                      outcome (sameSite new_URL cur t) = Some false)).
Proof. apply findCurrentSiteIndex_first. Qed.

(** X2: the finder's test is an equivalence relation on strings, whatever the
    URL constructor does: every string passes against itself, the test does
    not depend on the order of its two arguments, and it is transitive. *)
Theorem sameSite_equivalence new_URL a b c :
  outcome (sameSite new_URL a a) = Some true
  /\ outcome (sameSite new_URL a b) = outcome (sameSite new_URL b a)
  /\ (outcome (sameSite new_URL a b) = Some true ->
      outcome (sameSite new_URL b c) = Some true ->
      outcome (sameSite new_URL a c) = Some true).
Proof.
  split; [apply sameSite_refl|]. split.
  - rewrite !sameSite_outcome. f_equal.
    destruct (new_URL a), (new_URL b); apply String.eqb_sym.
  - rewrite !sameSite_outcome. intros Hab Hbc.
    inversion Hab as [Eab]. inversion Hbc as [Ebc]. clear Hab Hbc.
    f_equal.
    destruct (new_URL a) as [ua|] eqn:Ea, (new_URL b) as [ub|] eqn:Eb,
             (new_URL c) as [uc|] eqn:Ec;
      rewrite ?Eab, ?Ebc;
      repeat match goal with
             | H : (_ =? _)%string = true |- _ => apply String.eqb_eq in H
             end;
      try (apply String.eqb_eq; congruence);
      try (exfalso; congruence).
Qed.

Lemma sameSite_equivalence_witness :
  outcome (sameSite Url.parse "https://www.b.example" "https://b.example/x")
  = Some true
  /\ outcome (sameSite Url.parse "https://b.example/x" "HTTPS://B.example")
     = Some true
  /\ outcome (sameSite Url.parse "https://www.b.example" "HTTPS://B.example")
     = Some true.
Proof.
  split; [reflexivity|]. split; [reflexivity|].
  apply (sameSite_equivalence Url.parse "https://www.b.example"
           "https://b.example/x" "HTTPS://B.example"); reflexivity.
Defined.

(** X3: a current site that is itself an entry of the list is always found:
    the finder returns a position in range, at most the position of that
    entry, never the sentinel. *)
Theorem member_is_found new_URL sites cur i :
  nth_error sites i = Some cur ->
  exists k,
    outcome (findCurrentSiteIndex new_URL sites cur) = Some k
    /\ 0 <= k <= Z.of_nat i /\ k < Z.of_nat (List.length sites).
Proof.
  intros Hi.
  destruct (findCurrentSiteIndex_first new_URL sites cur) as [k [Hk Hr]].
  exists k. split; [exact Hk|].
  destruct Hr as [[_ Hall]|[Hrange [s [Hs [_ Hlt]]]]].
  - exfalso. pose proof (Hall cur (nth_error_In _ _ Hi)) as Hf.
    rewrite sameSite_refl in Hf. discriminate Hf.
  - split; [|lia]. split; [lia|].
    destruct (Z_le_gt_dec k (Z.of_nat i)) as [Hle|Hgt]; [exact Hle|].
    exfalso. pose proof (Hlt i cur ltac:(lia) Hi) as Hf.
    rewrite sameSite_refl in Hf. discriminate Hf.
Qed.

Lemma member_is_found_witness :
  nth_error ring 2 = Some "https://c.example"
  /\ exists k,
       outcome (findCurrentSiteIndex Url.parse ring "https://c.example")
       = Some k
       /\ 0 <= k <= 2 /\ k < 3.
Proof.
  split; [reflexivity|].
  apply (member_is_found Url.parse ring "https://c.example" 2).
  reflexivity.
Defined.

(** X12: a current site on which the URL constructor succeeds counts only
    through its [origin] getter: two current-site strings whose URLs have the
    same origin get the same position from the finder and, given as explicit
    non-empty arguments, the same result from the composer. *)
Theorem current_site_counts_by_origin
  new_URL sites c1 c2 u1 u2 window window' :
  new_URL c1 = Some u1 -> new_URL c2 = Some u2 -> origin u1 = origin u2 ->
  outcome (findCurrentSiteIndex new_URL sites c1)
  = outcome (findCurrentSiteIndex new_URL sites c2)
  /\ (c1 <> "" -> c2 <> "" ->
      outcome (calculateWebRingNavigation new_URL sites (Some c1) window)
      = outcome (calculateWebRingNavigation new_URL sites (Some c2) window')).
Proof.
  intros H1 H2 Ho.
  assert (outcome (findCurrentSiteIndex new_URL sites c1)
          = outcome (findCurrentSiteIndex new_URL sites c2)) as Hf.
  { unfold findCurrentSiteIndex, findIndex. rewrite !outcome_call.
    apply findIndex_from_ext. intros x.
    rewrite !sameSite_outcome, H1, H2, Ho.
    destruct (new_URL x) as [su|] eqn:Ex; [reflexivity|]. f_equal.
    assert ((x =? c1)%string = false) as ->
      by (apply String.eqb_neq; congruence).
    symmetry. apply String.eqb_neq. congruence. }
  split; [exact Hf|]. intros N1 N2.
  assert (forall c, c <> "" -> truthy c = true) as Ht.
  { intros c Hc. unfold truthy. apply negb_true_iff, String.eqb_neq, Hc. }
  unfold calculateWebRingNavigation. rewrite (Ht c1 N1), (Ht c2 N2).
  rewrite !outcome_call.
  destruct (Z.of_nat (List.length sites) =? 0); [reflexivity|].
  rewrite !outcome_bind, Hf. reflexivity.
Qed.

Lemma current_site_counts_by_origin_witness :
  outcome (calculateWebRingNavigation Url.parse ring
             (Some "https://b.example/posts/1?x=2#top") None)
  = outcome (calculateWebRingNavigation Url.parse ring
               (Some "HTTPS://B.EXAMPLE:443") (Some "https://a.example")).
Proof.
  apply (current_site_counts_by_origin Url.parse ring
           "https://b.example/posts/1?x=2#top" "HTTPS://B.EXAMPLE:443"
           {| protocol := "https:"; hostname := "b.example"; port := "";
              origin := "https://b.example" |}
           {| protocol := "https:"; hostname := "b.example"; port := "";
              origin := "https://b.example" |});
    reflexivity || discriminate.
Defined.

(** ** Further properties: the wraparound calculator *)

(** X4: on a list of length [n > 0] and a position [0 <= p < n], stepping to
    the next index and then to the previous one, or to the previous and then
    to the next, comes back to [p]. *)
Theorem next_prev_inverse n p :
  0 < n -> 0 <= p < n ->
  outcome (ix <- calculateNavigationIndices p n ;;
           back <- calculateNavigationIndices (nextIndex ix) n ;;
           ret (prevIndex back)) = Some p
  /\ outcome (ix <- calculateNavigationIndices p n ;;
              forth <- calculateNavigationIndices (prevIndex ix) n ;;
              ret (nextIndex forth)) = Some p.
Proof.
  intros Hn Hp.
  rewrite !outcome_bind, !calculateNavigationIndices_outcome.
  destruct (Z.ltb_spec p 0); [lia|]. cbn [prevIndex nextIndex].
  rewrite !outcome_bind, !calculateNavigationIndices_outcome.
  split.
  - destruct (Z.eqb_spec p (n - 1)).
    + cbn [Z.ltb Z.compare prevIndex Z.eqb outcome ret snd]. f_equal. lia.
    + destruct (Z.ltb_spec (p + 1) 0); [lia|]. cbn [prevIndex].
      destruct (Z.eqb_spec (p + 1) 0); [lia|].
      cbn [outcome ret snd]. f_equal. lia.
  - destruct (Z.eqb_spec p 0).
    + destruct (Z.ltb_spec (n - 1) 0); [lia|]. cbn [nextIndex].
      rewrite Z.eqb_refl. cbn [outcome ret snd]. f_equal. lia.
    + destruct (Z.ltb_spec (p - 1) 0); [lia|]. cbn [nextIndex].
      destruct (Z.eqb_spec (p - 1) (n - 1)); [lia|].
      cbn [outcome ret snd]. f_equal. lia.
Qed.

Lemma next_prev_inverse_witness :
  0 < 3 /\ 0 <= 2 < 3
  /\ outcome (ix <- calculateNavigationIndices 2 3 ;;
              back <- calculateNavigationIndices (nextIndex ix) 3 ;;
              ret (prevIndex back)) = Some 2.
Proof.
  split; [lia|]. split; [lia|].
  apply (next_prev_inverse 3 2); lia.
Defined.

(** X9: for a list length [n > 0] the calculator returns two indices inside
    [0, n) exactly when the position is below [n]: every negative position,
    not only [-1], is treated as the hub, and a position at or beyond the
    length gives an index outside the list. *)
Theorem indices_in_range_iff n p :
  0 < n ->
  exists ix,
    outcome (calculateNavigationIndices p n) = Some ix
    /\ (0 <= prevIndex ix < n /\ 0 <= nextIndex ix < n <-> p < n).
Proof.
  intros Hn. eexists. split; [apply calculateNavigationIndices_outcome|].
  destruct (Z.ltb_spec p 0); cbn [prevIndex nextIndex]; [lia|].
  destruct (Z.eqb_spec p 0); destruct (Z.eqb_spec p (n - 1)); lia.
Qed.

Lemma indices_in_range_iff_witness :
  0 < 3
  /\ exists ix,
       outcome (calculateNavigationIndices (-7) 3) = Some ix
       /\ (0 <= prevIndex ix < 3 /\ 0 <= nextIndex ix < 3 <-> -7 < 3).
Proof.
  split; [lia|]. apply (indices_in_range_iff 3 (-7)). lia.
Defined.

(** ** Further properties: walking the ring *)

Lemma effective_explicit c window :
  c <> "" -> effectiveCurrentSite (Some c) window = Some c.
Proof.
  intros Hc. unfold effectiveCurrentSite, truthy.
  apply String.eqb_neq in Hc. rewrite Hc. reflexivity.
Qed.

Lemma findCurrentSiteIndex_exact new_URL sites i s :
  distinct_sites new_URL sites -> nth_error sites i = Some s ->
  outcome (findCurrentSiteIndex new_URL sites s) = Some (Z.of_nat i).
Proof.
  intros Hd Hi.
  destruct (findCurrentSiteIndex_first new_URL sites s) as [k [Hk Hr]].
  rewrite Hk. f_equal.
  destruct Hr as [[_ Hall]|[Hrange [x [Hx [Hs _]]]]].
  - exfalso. pose proof (Hall s (nth_error_In _ _ Hi)) as Hf.
    rewrite sameSite_refl in Hf. discriminate Hf.
  - pose proof (Hd i (Z.to_nat k) s x Hi Hx Hs). lia.
Qed.

Lemma navigation_from_member new_URL sites window i s :
  distinct_sites new_URL sites -> ~ In "" sites ->
  nth_error sites i = Some s ->
  let n := Z.of_nat (List.length sites) in
  exists p q,
    outcome (calculateWebRingNavigation new_URL sites (Some s) window)
    = Some {| prev := Str p; next := Str q |}
    /\ nth_error sites (Z.to_nat ((Z.of_nat i - 1) mod n)) = Some p
    /\ nth_error sites (Z.to_nat ((Z.of_nat i + 1) mod n)) = Some q.
Proof.
  intros Hd He Hi n.
  assert (s <> "") as Hs.
  { intros ->. apply He. eapply nth_error_In, Hi. }
  assert (sites <> []) as Hne.
  { intros ->. destruct i; discriminate Hi. }
  rewrite calculateWebRingNavigation_effective, effective_explicit by exact Hs.
  assert (i < List.length sites)%nat as Hlt
    by (apply nth_error_Some; congruence).
  destruct (navigation_at_position new_URL sites (Some s) (Z.of_nat i) Hne
              (findCurrentSiteIndex_exact new_URL sites i s Hd Hi)
              ltac:(right; lia)) as [p [q [E [Np Nq]]]].
  fold n in Np, Nq.
  destruct (Z.ltb_spec (Z.of_nat i) 0) as [|_]; [lia|].
  exists p, q. auto.
Qed.

(** X5: in a list whose entries are pairwise different sites and none of
    which is the empty string, the composer follows the ring order: from the
    entry at position [i] it returns the entries at positions [i - 1] and
    [i + 1] modulo the length, and walking on is consistent: the [prev] of
    its [next] and the [next] of its [prev] are the entry itself. *)
Theorem ring_round_trip new_URL sites window window' i s :
  distinct_sites new_URL sites -> ~ In "" sites ->
  nth_error sites i = Some s ->
  exists p q,
    outcome (calculateWebRingNavigation new_URL sites (Some s) window)
    = Some {| prev := Str p; next := Str q |}
    /\ nth_error sites
         (Z.to_nat ((Z.of_nat i - 1) mod Z.of_nat (List.length sites)))
       = Some p
    /\ nth_error sites
         (Z.to_nat ((Z.of_nat i + 1) mod Z.of_nat (List.length sites)))
       = Some q
    /\ (exists q',
          outcome (calculateWebRingNavigation new_URL sites (Some p) window')
          = Some {| prev := Str q'; next := Str s |})
    /\ (exists p',
          outcome (calculateWebRingNavigation new_URL sites (Some q) window')
          = Some {| prev := Str s; next := Str p' |}).
Proof.
  intros Hd He Hi.
  assert (i < List.length sites)%nat as Hlt
    by (apply nth_error_Some; congruence).
  set (n := Z.of_nat (List.length sites)).
  assert (0 < n) as Hn by (subst n; lia).
  destruct (navigation_from_member new_URL sites window i s Hd He Hi)
    as [p [q [E [Np Nq]]]]. fold n in Np, Nq.
  exists p, q. split; [exact E|]. split; [exact Np|]. split; [exact Nq|].
  pose proof (Z.mod_pos_bound (Z.of_nat i - 1) n Hn) as Bp.
  pose proof (Z.mod_pos_bound (Z.of_nat i + 1) n Hn) as Bq.
  split.
  - destruct (navigation_from_member new_URL sites window' _ p Hd He Np)
      as [q' [s' [E' [_ Ns]]]]. fold n in Ns.
    rewrite Z2Nat.id in Ns by lia.
    rewrite Zplus_mod_idemp_l in Ns.
    replace (Z.of_nat i - 1 + 1) with (Z.of_nat i) in Ns by lia.
    rewrite Z.mod_small, Nat2Z.id, Hi in Ns by lia.
    inversion Ns; subst s'. exists q'. exact E'.
  - destruct (navigation_from_member new_URL sites window' _ q Hd He Nq)
      as [s' [p' [E' [Ns _]]]]. fold n in Ns.
    rewrite Z2Nat.id in Ns by lia.
    rewrite Zminus_mod_idemp_l in Ns.
    replace (Z.of_nat i + 1 - 1) with (Z.of_nat i) in Ns by lia.
    rewrite Z.mod_small, Nat2Z.id, Hi in Ns by lia.
    inversion Ns; subst s'. exists p'. exact E'.
Qed.

Lemma ring_distinct : distinct_sites Url.parse ring.
Proof.
  intros i j a b Hi Hj H.
  destruct i as [|[|[|i]]]; cbn in Hi;
    try (destruct i; discriminate Hi);
    destruct j as [|[|[|j]]]; cbn in Hj;
    try (destruct j; discriminate Hj);
    inversion Hi; inversion Hj; subst a b;
    try reflexivity; vm_compute in H; discriminate H.
Qed.

Lemma ring_no_empty_entry : ~ In "" ring.
Proof. intros [H|[H|[H|[]]]]; discriminate H. Qed.

Lemma ring_round_trip_witness :
  nth_error ring 2 = Some "https://c.example"
  /\ exists p q,
       outcome (calculateWebRingNavigation Url.parse ring
                  (Some "https://c.example") None)
       = Some {| prev := Str p; next := Str q |}
       /\ nth_error ring (Z.to_nat ((Z.of_nat 2 - 1) mod 3)) = Some p
       /\ nth_error ring (Z.to_nat ((Z.of_nat 2 + 1) mod 3)) = Some q
       /\ (exists q',
             outcome (calculateWebRingNavigation Url.parse ring (Some p) None)
             = Some {| prev := Str q'; next := Str "https://c.example" |})
       /\ (exists p',
             outcome (calculateWebRingNavigation Url.parse ring (Some q) None)
             = Some {| prev := Str "https://c.example"; next := Str p' |}).
Proof.
  split; [reflexivity|].
  apply (ring_round_trip Url.parse ring None None 2 "https://c.example"
           ring_distinct ring_no_empty_entry).
  reflexivity.
Defined.

(** X6: a ring of one site: whatever the current site is, the site is its own
    neighbour on both sides. *)
Theorem single_site_is_own_neighbour new_URL site currentSite window :
  outcome (calculateWebRingNavigation new_URL [site] currentSite window)
  = Some {| prev := Str site; next := Str site |}.
Proof. apply single_site_ring. Qed.

(** X11: for a non-empty list the wraparound calculator always runs, and the
    position finder runs exactly when a current-site string was determined
    (a non-empty explicit argument or an ambient location).  Without one the
    functions entered are the composer and the calculator and no other
    (neither the finder nor [normalizeOrigin] nor [normalizeHostname]), and
    the whole run is the same for every behaviour of the URL constructor. *)
Theorem finder_runs_iff_current_site new_URL sites currentSite window :
  sites <> [] ->
  In FnCalculateNavigationIndices
    (trace (calculateWebRingNavigation new_URL sites currentSite window))
  /\ (In FnFindCurrentSiteIndex
        (trace (calculateWebRingNavigation new_URL sites currentSite window))
      <-> effectiveCurrentSite currentSite window <> None)
  /\ (effectiveCurrentSite currentSite window = None ->
      trace (calculateWebRingNavigation new_URL sites currentSite window)
      = [FnCalculateWebRingNavigation; FnCalculateNavigationIndices]
      /\ forall new_URL',
           calculateWebRingNavigation new_URL' sites currentSite window
           = calculateWebRingNavigation new_URL sites currentSite window).
Proof.
  intros Hne.
  destruct (nonempty_ring_runs_calculator new_URL sites currentSite window Hne)
    as [Hc Hf].
  assert (effectiveCurrentSite currentSite window = None ->
          forall f,
            calculateWebRingNavigation f sites currentSite window
            = ([FnCalculateWebRingNavigation; FnCalculateNavigationIndices],
               Some {| prev := Str (last sites "");
                       next := Str (hd "" sites) |}))
    as Hrun.
  { intros He f. rewrite calculateWebRingNavigation_effective, He.
    unfold composeNavigation.
    destruct (Z.eqb_spec (Z.of_nat (List.length sites)) 0) as [E|_].
    { destruct sites; [congruence | cbn [List.length] in E; lia]. }
    cbn -[array_get Z.of_nat Z.sub].
    rewrite array_get_last, array_get_first by exact Hne.
    reflexivity. }
  split; [exact Hc|]. split.
  - split; [|exact Hf]. intros Hin He. rewrite (Hrun He new_URL) in Hin.
    cbn in Hin. intuition discriminate.
  - intros He. split.
    + rewrite (Hrun He new_URL). reflexivity.
    + intros f. rewrite (Hrun He f), (Hrun He new_URL). reflexivity.
Qed.

Lemma finder_runs_iff_current_site_witness :
  ring <> []
  /\ trace (calculateWebRingNavigation Url.parse ring (Some "") None)
     = [FnCalculateWebRingNavigation; FnCalculateNavigationIndices].
Proof.
  split; [discriminate|].
  destruct (finder_runs_iff_current_site Url.parse ring (Some "") None)
    as [_ [_ H]]; [discriminate|].
  apply H. reflexivity.
Defined.

(** ** Further properties: the normalizer *)

Lemma toLowerCase_append (a b : string) :
  toLowerCase (a ++ b) = toLowerCase a ++ toLowerCase b.
Proof.
  induction a as [|c a IH]; [reflexivity|]. cbn. rewrite IH. reflexivity.
Qed.

Lemma match_prefix_i_complete g :
  forall r, match_prefix_i (toLowerCase g) (g ++ r) = Some (g, r).
Proof.
  induction g as [|c g IH]; intros r; [reflexivity|].
  cbn [toLowerCase append match_prefix_i].
  rewrite Ascii.eqb_refl, IH. reflexivity.
Qed.

Lemma replace_after_complete scheme g w r :
  toLowerCase g = scheme -> toLowerCase w = "www." ->
  replace_after scheme (g ++ w ++ r) = Some (g ++ r).
Proof.
  intros <- Hw. unfold replace_after.
  rewrite match_prefix_i_complete, <- Hw, match_prefix_i_complete.
  reflexivity.
Qed.

Lemma replace_after_https_on_http g w r :
  toLowerCase g = "http://" -> toLowerCase w = "www." ->
  replace_after "https://" (g ++ w ++ r) = None.
Proof.
  intros Hg Hw. unfold replace_after.
  destruct (match_prefix_i "https://" (g ++ w ++ r)) as [[g' r']|] eqn:E;
    [|reflexivity].
  exfalso. apply match_prefix_i_spec in E. destruct E as [E Hg'].
  apply (f_equal toLowerCase) in E.
  rewrite !toLowerCase_append, Hg, Hw, Hg' in E. discriminate E.
Qed.

(** X10: on the catch path of the normalizer the substitution is complete
    and keeps the spelling: whenever the input is [g ++ w ++ r] with [g] a
    spelling of [http://] or [https://] and [w] a spelling of [www.] in any
    mix of cases, the result is [g ++ r], with [g] and [r] as written. *)
Theorem fallback_strips_www new_URL s g w r :
  new_URL s = None ->
  s = g ++ w ++ r ->
  toLowerCase g = "http://" \/ toLowerCase g = "https://" ->
  toLowerCase w = "www." ->
  outcome (normalizeOrigin new_URL s) = Some (g ++ r).
Proof.
  intros Hs -> Hg Hw. rewrite normalizeOrigin_fallback by exact Hs.
  cbn [outcome snd]. f_equal. unfold replace_scheme_www.
  destruct Hg as [Hg|Hg].
  - rewrite (replace_after_https_on_http g w r Hg Hw).
    rewrite (replace_after_complete "http://" g w r Hg Hw). reflexivity.
  - rewrite (replace_after_complete "https://" g w r Hg Hw). reflexivity.
Qed.

Lemma fallback_strips_www_witness :
  Url.parse "hTTp://WwW.my site" = None
  /\ outcome (normalizeOrigin Url.parse "hTTp://WwW.my site")
     = Some "hTTp://my site".
Proof.
  split; [reflexivity|].
  apply (fallback_strips_www Url.parse "hTTp://WwW.my site"
           "hTTp://" "WwW." "my site");
    [reflexivity | reflexivity | left; reflexivity | reflexivity].
Defined.

(** X8: for a string that parses as a URL (of the model's fragment),
    normalizing the [origin] getter of the URL, as the finder does, gives the
    same string as normalizing the URL string itself; path, query, fragment,
    the case of scheme and host, and a default port play no part. *)
Theorem normalizeOrigin_of_origin s u :
  Url.parse s = Some u ->
  outcome (normalizeOrigin Url.parse (origin u))
  = outcome (normalizeOrigin Url.parse s).
Proof.
  intros H.
  rewrite (normalizeOrigin_parsed Url.parse _ u (parse_origin s u H)).
  rewrite (normalizeOrigin_parsed Url.parse s u H). reflexivity.
Qed.

Lemma normalizeOrigin_of_origin_witness :
  outcome (normalizeOrigin Url.parse "https://www.example.com")
  = outcome (normalizeOrigin Url.parse
               "HTTPS://WWW.Example.com:443/ring?x=1#top").
Proof.
  apply (normalizeOrigin_of_origin
           "HTTPS://WWW.Example.com:443/ring?x=1#top"
           {| protocol := "https:"; hostname := "www.example.com";
              port := ""; origin := "https://www.example.com" |}).
  reflexivity.
Defined.

Lemma normalized_key_parse s u :
  Url.parse s = Some u ->
  exists og,
    Url.parse (protocol u ++ "//" ++ replace_leading_www (hostname u)
               ++ (if truthy (port u) then ":" ++ port u else ""))
    = Some {| protocol := protocol u;
              hostname := replace_leading_www (hostname u);
              port := port u;
              origin := og |}.
Proof.
  intros H.
  destruct (parse_inv s u H)
    as [scheme [rest [dflt [h [p [_ [Hd [_ [Hh [_ [Hp [Epr _]]]]]]]]]]]].
  rewrite Epr. eexists.
  apply (parse_serialized scheme dflt _ (port u) Hd
           (host_ok_replace_leading_www _ Hh) (parse_port_port_ok _ _ _ Hp)).
Qed.

(** X7: for a list entry and a current site that both parse as URLs (of the
    model's fragment), the finder's test succeeds exactly when the two URLs
    have the same scheme, the same host up to one leading [www.] label, and
    the same port after default ports are dropped. *)
Theorem same_site_iff cur site cu su :
  Url.parse site = Some su -> Url.parse cur = Some cu ->
  outcome (sameSite Url.parse cur site) = Some true
  <-> protocol su = protocol cu
      /\ replace_leading_www (hostname su) = replace_leading_www (hostname cu)
      /\ port su = port cu.
Proof.
  intros Hs Hc. rewrite (sameSite_model cur site cu su Hs Hc). split.
  - intros H. cbv zeta in H. injection H as E. apply String.eqb_eq in E.
    destruct (normalized_key_parse site su Hs) as [og1 P1].
    destruct (normalized_key_parse cur cu Hc) as [og2 P2].
    cbn [append] in E, P1, P2. rewrite E, P2 in P1. inversion P1. auto.
  - intros [-> [-> ->]]. rewrite String.eqb_refl. reflexivity.
Qed.

Lemma same_site_iff_witness :
  Url.parse "http://b.example" <> None
  /\ Url.parse "https://b.example" <> None
  /\ outcome (sameSite Url.parse "https://b.example" "http://b.example")
     <> Some true.
Proof.
  split; [discriminate|]. split; [discriminate|].
  intros H.
  apply (same_site_iff "https://b.example" "http://b.example"
           {| protocol := "https:"; hostname := "b.example"; port := "";
              origin := "https://b.example" |}
           {| protocol := "http:"; hostname := "b.example"; port := "";
              origin := "http://b.example" |} eq_refl eq_refl) in H.
  destruct H as [H _]. discriminate H.
Defined.

(** X13: for a string that parses as a URL (of the model's fragment), the
    string returned by the normalizer is itself a URL that is its own origin:
    it parses, its [origin] getter is the string itself, its scheme and port
    are those of the input, and its host is the input's host without one
    leading [www.] label. *)
Theorem normalized_is_an_origin s u :
  Url.parse s = Some u ->
  exists out u',
    outcome (normalizeOrigin Url.parse s) = Some out
    /\ Url.parse out = Some u'
    /\ origin u' = out
    /\ protocol u' = protocol u
    /\ hostname u' = replace_leading_www (hostname u)
    /\ port u' = port u.
Proof.
  intros H.
  destruct (parse_inv s u H)
    as [scheme [rest [dflt [h [p [_ [Hd [_ [Hh [_ [Hp [Epr _]]]]]]]]]]]].
  eexists. eexists.
  split; [apply (normalizeOrigin_parsed Url.parse s u H)|].
  rewrite (host_ok_lower _ Hh), Epr.
  split.
  - apply (parse_serialized scheme dflt _ (port u) Hd
             (host_ok_replace_leading_www _ Hh)
             (parse_port_port_ok _ _ _ Hp)).
  - cbn [origin protocol hostname port].
    rewrite scheme_colon_slashes. auto.
Qed.

Lemma normalized_is_an_origin_witness :
  Url.parse "ws://WWW.Chat.example:8080/socket" <> None
  /\ exists out u',
       outcome (normalizeOrigin Url.parse "ws://WWW.Chat.example:8080/socket")
       = Some out
       /\ Url.parse out = Some u'
       /\ origin u' = out.
Proof.
  split; [discriminate|].
  destruct (normalized_is_an_origin "ws://WWW.Chat.example:8080/socket"
              {| protocol := "ws:"; hostname := "www.chat.example";
                 port := "8080"; origin := "ws://www.chat.example:8080" |}
              eq_refl)
    as [out [u' [Ho [Hp [Hg _]]]]].
  exists out, u'. auto.
Defined.

(** X14: an entry and a current site of which exactly one is accepted by the
    URL constructor never match: the test falls back to string equality,
    which cannot hold between a string that parses and one that does not.
    So an entry that is not a URL (a bare host name, say) is skipped for
    every current site that is one. *)
Theorem mixed_parse_never_matches new_URL cur site :
  (new_URL cur = None /\ new_URL site <> None)
  \/ (new_URL cur <> None /\ new_URL site = None) ->
  outcome (sameSite new_URL cur site) = Some false.
Proof.
  intros H. rewrite sameSite_outcome. f_equal.
  destruct (new_URL site) as [su|] eqn:Es, (new_URL cur) as [cu|] eqn:Ec;
    try (destruct H as [[? ?]|[? ?]]; congruence);
    apply String.eqb_neq; congruence.
Qed.

Lemma mixed_parse_never_matches_witness :
  outcome (sameSite Url.parse "https://www.b.example" "b.example")
  = Some false.
Proof.
  apply (mixed_parse_never_matches Url.parse "https://www.b.example"
           "b.example").
  right. split; [discriminate | reflexivity].
Defined.

(** ** When normalizing twice equals normalizing once *)








(** ** The port suffix *)

Lemma scheme_default_port_protocol scheme dflt :
  Url.default_port scheme = Some dflt ->
  scheme_default_port (scheme ++ ":") = Some dflt.
Proof.
  unfold Url.default_port.
  repeat match goal with
         | |- context [String.eqb scheme ?k] =>
             destruct (String.eqb_spec scheme k) as [->|_];
             [intros H; exact H|]
         end.
  discriminate.
Qed.

(** The model of the URL constructor follows the URL Standard's rule for the
    [port] getter. *)
Lemma model_port_getter s u :
  Url.parse s = Some u ->
  port u = port_getter (model_written_port s) (protocol u).
Proof.
  intros H.
  destruct (parse_inv s u H)
    as [scheme [rest [dflt [h [p [Hs [Hd [Hc [_ [_ [Hp [Epr _]]]]]]]]]]]].
  assert (Url.written_port s = p) as Hw.
  { unfold Url.written_port. rewrite Hs, Hc. reflexivity. }
  unfold model_written_port, port_getter.
  rewrite Hw, Epr, (scheme_default_port_protocol scheme dflt Hd).
  destruct (parse_port_inv _ _ _ Hp)
    as [[-> Hcase]|[d [n [-> [Hne [Hn [Hnd [_ ->]]]]]]]].
  - destruct Hcase as [->|[->|[d [-> [Hne Hn]]]]]; [reflexivity..|].
    apply String.eqb_neq in Hne. rewrite Hne, Hn, N.eqb_refl. reflexivity.
  - apply String.eqb_neq in Hne. rewrite Hne, Hn.
    destruct (N.eqb_spec dflt n); [congruence | reflexivity].
Qed.

(** C9, amended: for every input that the normalizer successfully parses as
    a URL, the returned string contains a [:port] suffix if and only if a
    port is explicitly present in the input and is not the default port of
    the URL's scheme; the suffix is then the decimal form of that port, and
    otherwise the result is exactly [scheme://normalizedHost].  Proved for
    every URL constructor whose [port] getter follows the URL Standard: empty
    without a port in the input or with the default port of the scheme, else
    the port in decimal. *)
Theorem port_suffix_iff_not_default
  (new_URL : string -> option URL) (written : string -> option N) s u :
  (forall s' u',
     new_URL s' = Some u' ->
     port u' = port_getter (written s') (protocol u')) ->
  new_URL s = Some u ->
  exists out,
    outcome (normalizeOrigin new_URL s) = Some out
    /\ let base :=
         protocol u ++ "//" ++ replace_leading_www (toLowerCase (hostname u))
       in
       let present_not_default :=
         exists n,
           written s = Some n /\ scheme_default_port (protocol u) <> Some n in
       ((exists q, q <> "" /\ out = base ++ ":" ++ q) <-> present_not_default)
       /\ (forall n,
             written s = Some n ->
             scheme_default_port (protocol u) <> Some n ->
             out = base ++ ":" ++ Url.port_string n)
       /\ (~ present_not_default -> out = base).
Proof.
  intros Hlaw H. eexists.
  split; [apply (normalizeOrigin_parsed new_URL s u H)|].
  rewrite (Hlaw s u H).
  set (nh := replace_leading_www (toLowerCase (hostname u))).
  cbv zeta.
  replace (protocol u ++ "//" ++ nh
           ++ (if truthy (port_getter (written s) (protocol u))
               then ":" ++ port_getter (written s) (protocol u) else ""))
    with ((protocol u ++ "//" ++ nh)
          ++ (if truthy (port_getter (written s) (protocol u))
              then ":" ++ port_getter (written s) (protocol u) else ""))
    by (rewrite !append_assoc; reflexivity).
  set (base := protocol u ++ "//" ++ nh).
  assert (forall n, truthy (Url.port_string n) = true) as Ht.
  { intros n. unfold truthy.
    apply negb_true_iff, String.eqb_neq, port_string_nonempty. }
  assert (forall q, base <> base ++ ":" ++ q) as Hbase.
  { intros q Hq. rewrite <- (append_empty_r base) in Hq at 1.
    apply append_cancel_l in Hq. discriminate Hq. }
  unfold port_getter.
  destruct (written s) as [n|] eqn:Ew.
  - destruct (scheme_default_port (protocol u)) as [d|] eqn:Ed.
    + destruct (N.eqb_spec d n) as [->|Hdn].
      * cbn [truthy String.eqb negb]. rewrite append_empty_r.
        assert (~ (exists n0, Some n = Some n0 /\ Some n <> Some n0)) as Hno.
        { intros [n0 [E N0]]. congruence. }
        split; [|split].
        -- split; [|intros Hyes; contradiction].
           intros [q [_ Hq]]. exfalso. apply (Hbase q Hq).
        -- intros n0 E N0. congruence.
        -- reflexivity.
      * rewrite Ht.
        assert (exists n0, Some n = Some n0 /\ Some d <> Some n0) as Hyes.
        { exists n. split; [reflexivity | congruence]. }
        split; [|split].
        -- split; [intros _; exact Hyes|]. intros _.
           exists (Url.port_string n).
           split; [apply port_string_nonempty | reflexivity].
        -- intros n0 E _. inversion E; subst n0. reflexivity.
        -- intros Hno. contradiction.
    + rewrite Ht.
      assert (exists n0, Some n = Some n0 /\ None <> Some n0) as Hyes.
      { exists n. split; [reflexivity | discriminate]. }
      split; [|split].
      * split; [intros _; exact Hyes|]. intros _.
        exists (Url.port_string n).
        split; [apply port_string_nonempty | reflexivity].
      * intros n0 E _. inversion E; subst n0. reflexivity.
      * intros Hno. contradiction.
  - cbn [truthy String.eqb negb]. rewrite append_empty_r.
    split; [|split].
    + split; [|intros [n [E _]]; discriminate E].
      intros [q [_ Hq]]. exfalso. apply (Hbase q Hq).
    + intros n E. discriminate E.
    + reflexivity.
Qed.

Lemma port_suffix_iff_not_default_witness :
  Url.parse "http://www.example.com:8080/ring" <> None
  /\ model_written_port "http://www.example.com:8080/ring" = Some 8080%N
  /\ outcome (normalizeOrigin Url.parse "http://www.example.com:8080/ring")
     = Some "http://example.com:8080".
Proof.
  split; [discriminate|]. split; [reflexivity|].
  destruct (port_suffix_iff_not_default Url.parse model_written_port
              "http://www.example.com:8080/ring"
              {| protocol := "http:"; hostname := "www.example.com";
                 port := "8080"; origin := "http://www.example.com:8080" |}
              model_port_getter eq_refl)
    as [out [Ho [_ [Hyes _]]]].
  rewrite Ho. f_equal.
  apply (Hyes 8080%N); [reflexivity | discriminate].
Defined.
